(** * GoogleDrive client (drive.ts): path resolution, token lifecycle, listing

    A shallow embedding of the class [GoogleDrive] of [src/drive.ts].

    - JavaScript strings are modelled as [string] (text in UTF-8); every
      character the code inspects (slash, quote, percent sign, the characters of
      the rate-limit marker) is ASCII, so the byte view and the UTF-16 view
      agree on what the code does.
    - [this.pathCache] is a plain object used as a map: [gmap string
      (option RemoteObject)].  A key can be present with the value
      [undefined] (the assignment [this.pathCache[fullPath] = result.files[0]]
      with an empty [files]): that is [Some None]; an absent key is [None].
    - The world outside the client (the clock and the three HTTP endpoints) is
      an interface, [Network]; the code is a state-and-exception computation
      over the client state, which carries the world, and a trace of every
      network call issued.
    - [request] retries without bound and [listFiles] loops until the server
      stops handing out page tokens; both take a fuel argument and return
      [Diverge] when it is exhausted. *)

From Stdlib Require Import ZArith NArith Ascii String Lia DecimalString.
From stdpp Require Import base option list gmap strings.

Local Open Scope Z_scope.

(** ** JavaScript string helpers *)

Module Js.

Definition slash : ascii := "/"%char.
Definition quote : ascii := "'"%char.
Definition backslash : ascii := "092"%char.
Definition percent : ascii := "%"%char.

(** [s.replace(/\/+/g, "/")]: every maximal run of slashes becomes one. *)
Fixpoint collapse_slashes (s : string) : string :=
  match s with
  | EmptyString => EmptyString
  | String c s' =>
      if Ascii.eqb c slash then
        match s' with
        | String c' _ =>
            if Ascii.eqb c' slash then collapse_slashes s'
            else String c (collapse_slashes s')
        | EmptyString => String c EmptyString
        end
      else String c (collapse_slashes s')
  end.

(** [s.replace(/^c+/, "")] *)
Fixpoint trim_left (c : ascii) (s : string) : string :=
  match s with
  | EmptyString => EmptyString
  | String a s' => if Ascii.eqb a c then trim_left c s' else s
  end.

(** [s.replace(/c+$/, "")] *)
Fixpoint trim_right (c : ascii) (s : string) : string :=
  match s with
  | EmptyString => EmptyString
  | String a s' =>
      match trim_right c s' with
      | EmptyString => if Ascii.eqb a c then EmptyString else String a EmptyString
      | t => String a t
      end
  end.

(** [s.split(sep)] for a one-character separator; [("").split("/")] is
    the one-element array holding the empty string. *)
Fixpoint split (sep : ascii) (s : string) : list string :=
  match s with
  | EmptyString => [EmptyString]
  | String c s' =>
      if Ascii.eqb c sep then EmptyString :: split sep s'
      else match split sep s' with
           | h :: t => String c h :: t
           | [] => [String c EmptyString]
           end
  end.

(** [s.replace(/\'/g, "\\'")]: a backslash is put before every quote. *)
Fixpoint escape_quotes (s : string) : string :=
  match s with
  | EmptyString => EmptyString
  | String c s' =>
      if Ascii.eqb c quote then String backslash (String quote (escape_quotes s'))
      else String c (escape_quotes s')
  end.

(** [s.startsWith(p)] *)
Definition startsWith (s p : string) : bool := String.prefix p s.

(** *** [decodeURIComponent]

    The Decode operation of ECMAScript on UTF-8 text: an escape [%XY] with
    [XY < 0x80] yields that character; an escape with the high bit set must
    open a well-formed UTF-8 sequence of two to four octets, each written as
    an escape; anything else throws [URIError] ([None]). *)

Definition hex_val (c : ascii) : option N :=
  let n := N_of_ascii c in
  if ((48 <=? n) && (n <=? 57))%N then Some (n - 48)%N
  else if ((65 <=? n) && (n <=? 70))%N then Some (n - 55)%N
  else if ((97 <=? n) && (n <=? 102))%N then Some (n - 87)%N
  else None.

Definition read_escape (s : string) : option (N * string) :=
  match s with
  | String p (String h (String l rest)) =>
      if Ascii.eqb p percent then
        match hex_val h, hex_val l with
        | Some a, Some b => Some (16 * a + b, rest)%N
        | _, _ => None
        end
      else None
  | _ => None
  end.

(** Number of octets announced by a leading octet with the high bit set. *)
Definition utf8_len (b : N) : option nat :=
  if (b <? 192)%N then None
  else if (b <? 224)%N then Some 2%nat
  else if (b <? 240)%N then Some 3%nat
  else if (b <? 248)%N then Some 4%nat
  else None.

Fixpoint read_escapes (k : nat) (s : string) : option (list N * string) :=
  match k with
  | O => Some ([], s)
  | S k' =>
      match read_escape s with
      | Some (b, rest) =>
          match read_escapes k' rest with
          | Some (bs, rest') => Some (b :: bs, rest')
          | None => None
          end
      | None => None
      end
  end.

Definition in_range (lo hi b : N) : bool := ((lo <=? b) && (b <=? hi))%N.
Definition is_cont (b : N) : bool := in_range 128 191 b.

(** Well-formed UTF-8 octet sequences (Unicode, table 3-7): no overlong
    form, no surrogate, nothing above U+10FFFF. *)
Definition valid_utf8 (octets : list N) : bool :=
  match octets with
  | [a; b] => in_range 194 223 a && is_cont b
  | [a; b; c] =>
      ((N.eqb a 224 && in_range 160 191 b)
       || (in_range 225 236 a && is_cont b)
       || (N.eqb a 237 && in_range 128 159 b)
       || (in_range 238 239 a && is_cont b)) && is_cont c
  | [a; b; c; d] =>
      ((N.eqb a 240 && in_range 144 191 b)
       || (in_range 241 243 a && is_cont b)
       || (N.eqb a 244 && in_range 128 143 b)) && is_cont c && is_cont d
  | _ => false
  end.

Definition string_of_octets (l : list N) : string :=
  fold_right (fun b s => String (ascii_of_N b) s) EmptyString l.

Fixpoint decode_fuel (fuel : nat) (s : string) : option string :=
  match fuel with
  | O => match s with EmptyString => Some EmptyString | _ => None end
  | S fuel' =>
      match s with
      | EmptyString => Some EmptyString
      | String c s' =>
          if Ascii.eqb c percent then
            match read_escape s with
            | None => None
            | Some (b, rest) =>
                if (b <? 128)%N then
                  String (ascii_of_N b) <$> decode_fuel fuel' rest
                else
                  match utf8_len b with
                  | None => None
                  | Some n =>
                      match read_escapes (pred n) rest with
                      | None => None
                      | Some (bs, rest') =>
                          if valid_utf8 (b :: bs) then
                            String.append (string_of_octets (b :: bs))
                              <$> decode_fuel fuel' rest'
                          else None
                      end
                  end
            end
          else String c <$> decode_fuel fuel' s'
      end
  end.

(** Each step consumes at least one character, so the length is fuel
    enough. *)
Definition decodeURIComponent (s : string) : option string :=
  decode_fuel (String.length s) s.

End Js.

(** ** Data model *)

Definition TOKEN_URL : string := "https://www.googleapis.com/oauth2/v4/token".
Definition DRIVE_URL : string := "https://www.googleapis.com/drive/v3/files".
Definition FOLDER_TYPE : string := "application/vnd.google-apps.folder".
Definition FILE_ATTRS : string :=
  "id, name, mimeType, size, modifiedTime, description, iconLink, thumbnailLink, imageMediaMetadata".
Definition RATE_LIMIT_MARKER : string := "User Rate Limit Exceeded".

(** A file resource as the files endpoint returns it for [FILE_ATTRS]; the
    root object seeded by the constructor has only [id] and [mimeType]. *)
Record RemoteObject := {
  file_id : string;
  file_mimeType : string;
  file_name : option string;
  file_size : option string;
  file_modifiedTime : option string;
  file_more : list (string * string)
}.

(** A number as [expires_on] can hold it: an integer of milliseconds, or
    the [NaN] that arithmetic on [undefined] gives. *)
Inductive JsNum :=
| Num (n : Z)
| NaN.

Record DriveOptions := {
  client_id : string;
  client_secret : string;
  refresh_token : string;
  root_id : option string;
  access_token : option string;
  expires_on : option JsNum;
  logger : option bool
}.

(** Values of a [Record<string, string | number | boolean>]. *)
Inductive JsVal :=
| JStr (s : string)
| JNum (n : Z)
| JBool (b : bool).

Definition truthy (v : JsVal) : bool :=
  match v with
  | JStr s => negb (String.eqb s "")
  | JNum n => negb (n =? 0)
  | JBool b => b
  end.

Definition truthy_str (o : option string) : bool :=
  match o with Some s => negb (String.eqb s "") | None => false end.

Definition truthy_num (o : option Z) : bool :=
  match o with Some n => negb (n =? 0) | None => false end.

Definition truthy_bool (o : option bool) : bool :=
  match o with Some b => b | None => false end.

Definition Params := list (string * JsVal).

(** [stringify]: the pairs with a truthy value, in the order of the object's
    keys.  The percent-encoding of each key and value and the joining with
    ampersands are left out: the query string is kept as its list of pairs. *)
Definition stringify (p : Params) : Params :=
  List.filter (fun kv => truthy kv.2) p.

(** [p[k] = v] on an object: an existing key keeps its place. *)
Fixpoint assign (k : string) (v : JsVal) (p : Params) : Params :=
  match p with
  | [] => [(k, v)]
  | (k', v') :: p' =>
      if String.eqb k' k then (k, v) :: p' else (k', v') :: assign k v p'
  end.

(** *** The network

    Decoded bodies have the shapes of the two endpoints' answers: numbers
    are integers, [FilesError] is a body with an [error] object.  Of the
    token endpoint's body, the four members [authorize] reads, each one
    present or not: [error], [error_description], [access_token] and
    [expires_in]. *)

Record TokenBody := {
  token_error : option string;
  token_error_description : option string;
  token_access_token : option string;
  token_expires_in : option Z
}.

(** The answer of a refused exchange, [{ error, error_description }]. *)
Definition TokenError (error error_description : string) : TokenBody :=
  {| token_error := Some error;
     token_error_description := Some error_description;
     token_access_token := None; token_expires_in := None |}.

(** The answer of a granted exchange, [{ access_token, expires_in }]. *)
Definition TokenGranted (new_access_token : string) (expires_in : Z) : TokenBody :=
  {| token_error := None; token_error_description := None;
     token_access_token := Some new_access_token;
     token_expires_in := Some expires_in |}.

Record FilesResult := {
  files : list RemoteObject;
  nextPageToken : option string
}.

Inductive FilesBody :=
| FilesError (message : string)
| FilesOk (result : FilesResult).

Inductive MediaBody :=
| MediaError (message : string)
| MediaStream (bytes : string).

(** What [await fetch(...)] followed by [await response.json()] gives: a
    status and a decoded body, or a rejection ([Broken]). *)
Inductive Reply (B : Type) :=
| Answer (status : Z) (body : B)
| Broken.
Arguments Answer {B} status body.
Arguments Broken {B}.

Inductive NetCall :=
| TokenCall (body : Params)
| FilesCall (bearer : option string) (query : Params)
| MediaCall (bearer : option string) (id : string) (range : string).

(** The world outside the client: [Date.now()] and the three endpoints.  A
    fetch may change the world in any way (time passes, the server moves
    on). *)
Class Network (W : Type) := {
  date_now : W -> Z;
  fetch_token : Params -> W -> Reply TokenBody * W;
  fetch_files : option string -> Params -> W -> Reply FilesBody * W;
  fetch_media : option string -> string -> string -> W -> Reply MediaBody * W
}.

(** *** Thrown values, outcomes *)

Inductive Thrown :=
| Failure (status : Z) (message : string)   (* [throw { status, message }] *)
| FailureBare (status : Z)                  (* the same, [message] undefined *)
| URIError                                  (* from [decodeURIComponent] *)
| TypeError                                 (* the code's own read of a property
                                               of [undefined], or call of it *)
| FetchError.                               (* what [fetch] or [json()] rejected
                                               with, passed on as it is *)

(** [{ status, message }] with a [message] that may be missing. *)
Definition failure (status : Z) (message : option string) : Thrown :=
  match message with
  | Some m => Failure status m
  | None => FailureBare status
  end.

Inductive Outcome (A : Type) :=
| Ret (a : A)
| Throw (e : Thrown)
| Diverge.
Arguments Ret {A} a.
Arguments Throw {A} e.
Arguments Diverge {A}.

Inductive LogLine :=
| LogAuthorized (ms : Z)
| LogMetadata (fullPath : string) (ms : Z)
| LogRawdata (id : string) (ms : Z)
| LogFilelist (id : string) (ms : Z).

(** What [index] returns: the copied metadata, the flag, and the attached
    closures ([list] captures the copy and reads its [id]). *)
Inductive ListFn := MkListFn.
Inductive RawFn := MkRawFn.

Record IndexView := {
  meta : RemoteObject;
  isFolder : bool;
  list_cap : option ListFn;
  raw_cap : option RawFn
}.

Section Drive.

Context {W : Type} `{Network W}.

Record Client := {
  options : DriveOptions;
  pathCache : gmap string (option RemoteObject);
  world : W;
  trace : list NetCall;
  console : list LogLine
}.

Definition M (A : Type) : Type := Client -> Outcome A * Client.

Definition ret {A} (a : A) : M A := fun st => (Ret a, st).
Definition throw {A} (e : Thrown) : M A := fun st => (Throw e, st).
Definition diverge {A} : M A := fun st => (Diverge, st).
Definition bind {A B} (m : M A) (k : A -> M B) : M B :=
  fun st =>
    match m st with
    | (Ret a, st') => k a st'
    | (Throw e, st') => (Throw e, st')
    | (Diverge, st') => (Diverge, st')
    end.

Notation "x <- c1 ;; c2" := (bind c1 (fun x => c2))
  (at level 100, c1 at next level, right associativity).
Notation "c1 ;; c2" := (bind c1 (fun _ => c2))
  (at level 100, right associativity).

Definition set_options (o : DriveOptions) (st : Client) : Client :=
  {| options := o; pathCache := pathCache st; world := world st;
     trace := trace st; console := console st |}.
Definition set_pathCache (c : gmap string (option RemoteObject)) (st : Client) : Client :=
  {| options := options st; pathCache := c; world := world st;
     trace := trace st; console := console st |}.
Definition set_world (w : W) (st : Client) : Client :=
  {| options := options st; pathCache := pathCache st; world := w;
     trace := trace st; console := console st |}.
Definition push_call (c : NetCall) (st : Client) : Client :=
  {| options := options st; pathCache := pathCache st; world := world st;
     trace := trace st ++ [c]; console := console st |}.
Definition push_log (l : LogLine) (st : Client) : Client :=
  {| options := options st; pathCache := pathCache st; world := world st;
     trace := trace st; console := console st ++ [l] |}.

(** [Date.now()] *)
Definition Date_now : M Z := fun st => (Ret (date_now (world st)), st).

Definition get_options : M DriveOptions := fun st => (Ret (options st), st).

(** [if (this.options.logger) console.log(...)] *)
Definition log (l : LogLine) : M unit :=
  fun st => (Ret tt, if truthy_bool (logger (options st)) then push_log l st else st).

(** [this.pathCache[k]]: [undefined] for an absent key and for a key that
    holds [undefined]. *)
Definition cache_read (c : gmap string (option RemoteObject)) (k : string) : option RemoteObject :=
  match c !! k with Some v => v | None => None end.

Definition cache_get (k : string) : M (option RemoteObject) :=
  fun st => (Ret (cache_read (pathCache st) k), st).

(** [this.pathCache[k] = v] *)
Definition cache_set (k : string) (v : option RemoteObject) : M unit :=
  fun st => (Ret tt, set_pathCache (<[k := v]> (pathCache st)) st).

Definition settle {B} (r : Reply B * W) (c : NetCall) (st : Client) : Outcome (Z * B) * Client :=
  let st' := push_call c (set_world r.2 st) in
  match r.1 with
  | Answer status body => (Ret (status, body), st')
  | Broken => (Throw FetchError, st')
  end.

Definition fetch_TOKEN (body : Params) : M (Z * TokenBody) :=
  fun st => settle (fetch_token body (world st)) (TokenCall body) st.
Definition fetch_DRIVE (bearer : option string) (query : Params) : M (Z * FilesBody) :=
  fun st => settle (fetch_files bearer query (world st)) (FilesCall bearer query) st.
Definition fetch_MEDIA (bearer : option string) (id range : string) : M (Z * MediaBody) :=
  fun st => settle (fetch_media bearer id range (world st)) (MediaCall bearer id range) st.

(** ** The class *)

Definition root_object (root : string) : RemoteObject :=
  {| file_id := root; file_mimeType := FOLDER_TYPE; file_name := None;
     file_size := None; file_modifiedTime := None; file_more := [] |}.

(** [options.root_id || "root"] *)
Definition root_or_default (o : DriveOptions) : string :=
  match root_id o with
  | Some r => if truthy_str (Some r) then r else "root"
  | None => "root"
  end.

Definition constructor (o : DriveOptions) (w : W) : Client :=
  let root := root_or_default o in
  {| options := {| client_id := client_id o; client_secret := client_secret o;
                   refresh_token := refresh_token o; root_id := Some root;
                   access_token := access_token o; expires_on := expires_on o;
                   logger := logger o |};
     pathCache := {[ "/" := Some (root_object root) ]};
     world := w; trace := []; console := [] |}.

(** [this.options.expires_on && this.options.expires_on > Date.now()] *)
Definition token_fresh (o : DriveOptions) (now : Z) : bool :=
  match expires_on o with
  | Some (Num e) => truthy_num (Some e) && (now <? e)
  | Some NaN => false
  | None => false
  end.

(** [Date.now() + (result.expires_in - 300) * 1000], [NaN] when the member
    is missing. *)
Definition expiry (now : Z) (expires_in : option Z) : JsNum :=
  match expires_in with
  | Some life => Num (now + (life - 300) * 1000)
  | None => NaN
  end.

(** The two assignments to [this.options] at the end of [authorize]. *)
Definition store_token (tok : option string) (expires : JsNum) : M unit :=
  fun st =>
    let o := options st in
    (Ret tt,
     set_options {| client_id := client_id o; client_secret := client_secret o;
                    refresh_token := refresh_token o; root_id := root_id o;
                    access_token := tok; expires_on := Some expires;
                    logger := logger o |} st).

(** The form posted to the token endpoint. *)
Definition refresh_body (o : DriveOptions) : Params :=
  stringify
    [("client_id", JStr (client_id o));
     ("client_secret", JStr (client_secret o));
     ("refresh_token", JStr (refresh_token o));
     ("grant_type", JStr "refresh_token")].

Definition authorize : M unit :=
  o <- get_options ;;
  now <- Date_now ;;
  if token_fresh o now then ret tt
  else
    time <- Date_now ;;
    response <- fetch_TOKEN (refresh_body o) ;;
    let result := response.2 in
    if truthy_str (token_error result) then
      throw (failure response.1 (token_error_description result))
    else
      now' <- Date_now ;;
      store_token (token_access_token result)
        (expiry now' (token_expires_in result)) ;;
      now'' <- Date_now ;;
      log (LogAuthorized (now'' - time)).

Fixpoint request (fuel : nat) (params : Params) : M FilesResult :=
  match fuel with
  | O => diverge
  | S fuel' =>
      authorize ;;
      o <- get_options ;;
      response <- fetch_DRIVE (access_token o) (stringify params) ;;
      match response.2 with
      | FilesError message =>
          if Js.startsWith message RATE_LIMIT_MARKER then request fuel' params
          else throw (Failure response.1 message)
      | FilesOk result => ret result
      end
  end.

(** [paths.join("").replace(/\/+/g, "/")] *)
Definition join (paths : list string) : string :=
  Js.collapse_slashes (String.concat "" paths).

(** [trim(string, char)] with a one-character [char], as in its only call,
    [this.trim(path, "/")]: the pattern is [^\/+|\/+$]. *)
Definition trim (s : string) (char : ascii) : string :=
  Js.trim_right char (Js.trim_left char s).

Definition metadata_query (parent_id name : string) : Params :=
  [("q", JStr ("'" +:+ parent_id +:+ "' in parents and name = '" +:+ name
               +:+ "' and trashed = false"));
   ("fields", JStr ("files(" +:+ FILE_ATTRS +:+ ")"))].

(** The body of [if (!this.pathCache[fullPath]) { ... }] in [getMetadata]. *)
Definition fetch_segment (fuel : nat) (metadata : option RemoteObject)
    (name fullPath : string) : M unit :=
  time <- Date_now ;;
  match Js.decodeURIComponent name with
  | None => throw URIError
  | Some decoded =>
      let name' := Js.escape_quotes decoded in
      match metadata with
      | None => throw TypeError
      | Some m =>
          result <- request fuel (metadata_query (file_id m) name') ;;
          cache_set fullPath (head (files result)) ;;
          now <- Date_now ;;
          log (LogMetadata fullPath (now - time))
      end
  end.

(** The [for (let name of subpath)] loop. *)
Fixpoint walk (fuel : nat) (subpath : list string) (fullPath : string)
    (metadata : option RemoteObject) : M unit :=
  match subpath with
  | [] => ret tt
  | name :: rest =>
      let fullPath := fullPath +:+ name +:+ "/" in
      cached <- cache_get fullPath ;;
      (if cached is None then fetch_segment fuel metadata name fullPath
       else ret tt) ;;
      metadata <- cache_get fullPath ;;
      if metadata is None then ret tt
      else walk fuel rest fullPath metadata
  end.

Definition getMetadata (fuel : nat) (path : string) : M (option RemoteObject) :=
  let path := join ["/"; path; "/"] in
  cached <- cache_get path ;;
  (if cached is None then
     metadata <- cache_get "/" ;;
     walk fuel (Js.split Js.slash (trim path Js.slash)) "/" metadata
   else ret tt) ;;
  cache_get path.

Definition getRawData (id range : string) : M MediaBody :=
  time <- Date_now ;;
  authorize ;;
  o <- get_options ;;
  response <- fetch_MEDIA (access_token o) id range ;;
  if 400 <=? response.1 then
    match response.2 with
    | MediaError message => throw (Failure response.1 message)
    | MediaStream _ => throw FetchError
    end
  else
    now <- Date_now ;;
    log (LogRawdata id (now - time)) ;;
    ret response.2.

Definition list_params (id : string) : Params :=
  [("pageToken", JNum 0);
   ("pageSize", JNum 1000);
   ("q", JStr ("'" +:+ id +:+ "' in parents and trashed = false AND name != '.password'"));
   ("fields", JStr ("nextPageToken, files(" +:+ FILE_ATTRS +:+ ")"));
   ("orderBy", JStr "folder, name")].

(** The [do { ... } while (pageToken)] loop; [n] bounds its iterations. *)
Fixpoint listFiles_loop (fuel n : nat) (id : string) (params : Params)
    (pageToken : option string) (acc : list RemoteObject) : M (list RemoteObject) :=
  match n with
  | O => diverge
  | S n' =>
      let params :=
        if truthy_str pageToken
        then assign "pageToken" (JStr (default "" pageToken)) params
        else params in
      time <- Date_now ;;
      result <- request fuel params ;;
      now <- Date_now ;;
      log (LogFilelist id (now - time)) ;;
      let pageToken := nextPageToken result in
      let acc := acc ++ files result in
      if truthy_str pageToken then listFiles_loop fuel n' id params pageToken acc
      else ret acc
  end.

Definition listFiles (fuel : nat) (id : string) : M (list RemoteObject) :=
  listFiles_loop fuel fuel id (list_params id) None [].

Definition is_folder (m : RemoteObject) : bool :=
  String.eqb (file_mimeType m) FOLDER_TYPE.

Definition index (fuel : nat) (path : option string) : M IndexView :=
  metadata <- getMetadata fuel (default "" path) ;;
  match metadata with
  | None => throw (Failure 404 "Path not found")
  | Some m =>
      let folder := is_folder m in
      ret {| meta := m; isFolder := folder;
             list_cap := if folder then Some MkListFn else None;
             raw_cap := if folder then None else Some MkRawFn |}
  end.

(** Calling [metadata.list()] on a view. *)
Definition call_list (fuel : nat) (v : IndexView) : M (list IndexView) :=
  match list_cap v with
  | None => throw TypeError
  | Some MkListFn =>
      items <- listFiles fuel (file_id (meta v)) ;;
      ret (map (fun item => {| meta := item; isFolder := is_folder item;
                               list_cap := None; raw_cap := None |}) items)
  end.

(** Calling [metadata.raw(range)] on a view; [range] defaults to [""]. *)
Definition call_raw (v : IndexView) (range : option string) : M MediaBody :=
  match raw_cap v with
  | None => throw TypeError
  | Some MkRawFn => getRawData (file_id (meta v)) (default "" range)
  end.

End Drive.

(** ** A scripted world

    A concrete [Network]: each endpoint answers from its own queue of
    prepared replies (a rejected fetch once the queue is empty), and every
    fetch takes one millisecond. *)

Module Scripted.

Record World := {
  clock : Z;
  token_replies : list (Reply TokenBody);
  files_replies : list (Reply FilesBody);
  media_replies : list (Reply MediaBody)
}.

Definition pop {B} (l : list (Reply B)) : Reply B * list (Reply B) :=
  match l with
  | r :: l' => (r, l')
  | [] => (Broken, [])
  end.

Definition serve_token (w : World) : Reply TokenBody * World :=
  let (r, l) := pop (token_replies w) in
  (r, {| clock := clock w + 1; token_replies := l;
         files_replies := files_replies w; media_replies := media_replies w |}).

Definition serve_files (w : World) : Reply FilesBody * World :=
  let (r, l) := pop (files_replies w) in
  (r, {| clock := clock w + 1; token_replies := token_replies w;
         files_replies := l; media_replies := media_replies w |}).

Definition serve_media (w : World) : Reply MediaBody * World :=
  let (r, l) := pop (media_replies w) in
  (r, {| clock := clock w + 1; token_replies := token_replies w;
         files_replies := files_replies w; media_replies := l |}).

#[global] Instance network : Network World := {|
  date_now := clock;
  fetch_token := fun _ w => serve_token w;
  fetch_files := fun _ _ w => serve_files w;
  fetch_media := fun _ _ _ w => serve_media w
|}.

Definition credentials : DriveOptions :=
  {| client_id := "id"; client_secret := "secret"; refresh_token := "refresh";
     root_id := None; access_token := None; expires_on := None;
     logger := None |}.

(** A client built at time [1000] that already holds a token good until
    [1000000], against a files endpoint with the replies [l]. *)
Definition authorized (l : list (Reply FilesBody)) : Client :=
  constructor
    {| client_id := "id"; client_secret := "secret"; refresh_token := "refresh";
       root_id := None; access_token := Some "tok";
       expires_on := Some (Num 1000000);
       logger := None |}
    {| clock := 1000; token_replies := []; files_replies := l;
       media_replies := [] |}.

Definition file (id name mime : string) : RemoteObject :=
  {| file_id := id; file_mimeType := mime; file_name := Some name;
     file_size := None; file_modifiedTime := None; file_more := [] |}.

Definition page (l : list RemoteObject) (next : option string) : Reply FilesBody :=
  Answer 200 (FilesOk {| files := l; nextPageToken := next |}).

(** *** Scenarios *)

Definition file_a : RemoteObject := file "1" "a" FOLDER_TYPE.
Definition file_ab : RemoteObject := file "2" "a b" "text/plain".
Definition f1 : RemoteObject := file "11" "x" "text/plain".
Definition f2 : RemoteObject := file "12" "y" "text/plain".
Definition f3 : RemoteObject := file "13" "z" "text/plain".

(** The folder [a] does not exist at the first query and exists at the
    second. *)
Definition appears_later : Client :=
  authorized [page [] None; page [file_a] None].

(** The folder [a] does not exist. *)
Definition never_there : Client :=
  authorized [page [] None; page [] None; page [] None].

(** The first query is throttled, the second answered. *)
Definition throttled_once : Client :=
  authorized [Answer 403 (FilesError "User Rate Limit Exceeded. Try later.");
              page [file_a] None].

(** No token yet; the token endpoint grants two tokens of one hour. *)
Definition unauthorized : Client :=
  constructor credentials
    {| clock := 5;
       token_replies := [Answer 200 (TokenGranted "t1" 3600);
                         Answer 200 (TokenGranted "t2" 3600)];
       files_replies := []; media_replies := [] |}.

Definition at_time (t : Z) : World :=
  {| clock := t; token_replies := [Answer 200 (TokenGranted "t2" 3600)];
     files_replies := []; media_replies := [] |}.

(** No token yet; the token endpoint refuses. *)
Definition refused : Client :=
  constructor credentials
    {| clock := 5;
       token_replies := [Answer 400 (TokenError "invalid_grant" "Bad Request")];
       files_replies := []; media_replies := [] |}.

(** A body with none of the four members, as [{}]. *)
Definition no_members : TokenBody :=
  {| token_error := None; token_error_description := None;
     token_access_token := None; token_expires_in := None |}.

(** The held token has expired; the token endpoint answers with status 500
    and a body that has no [error] member and no token. *)
Definition expired_and_unserved : Client :=
  constructor
    {| client_id := "id"; client_secret := "secret"; refresh_token := "refresh";
       root_id := None; access_token := Some "tok"; expires_on := Some (Num 10);
       logger := None |}
    {| clock := 1000; token_replies := [Answer 500 no_members];
       files_replies := []; media_replies := [] |}.

(** The files endpoint answers the query for [a] with an error of status
    404. *)
Definition server_says_404 : Client :=
  authorized [Answer 404 (FilesError "File not found: .")].

(** Three children served in pages of two. *)
Definition three_children : Client :=
  authorized [page [f1; f2] (Some "next"); page [f3] None].

(** An empty folder: one page, empty, without a token. *)
Definition empty_folder : Client :=
  authorized [page [] None].

(** A file whose name has a space. *)
Definition with_space : Client :=
  authorized [page [file_ab] None; page [file_ab] None].

(** A listing of the root (one child, [a]) followed by a query. *)
Definition listable : Client :=
  authorized [page [file_a] None; page [file_a] None].

End Scripted.

(** ** Notions used to state the properties *)

Definition is_token_call (c : NetCall) : bool :=
  match c with TokenCall _ => true | _ => false end.

(** Number of token exchanges in a trace. *)
Definition token_calls (t : list NetCall) : nat :=
  length (filter (fun c => is_token_call c = true) t).

(** The queries of the calls to the files endpoint, in order. *)
Definition files_queries (t : list NetCall) : list Params :=
  omap (fun c => match c with FilesCall _ q => Some q | _ => None end) t.

(** Shape of a normalized path. *)
Fixpoint no_double_slash (s : string) : bool :=
  match s with
  | String a ((String b _) as s') =>
      negb (Ascii.eqb a Js.slash && Ascii.eqb b Js.slash) && no_double_slash s'
  | _ => true
  end.

Definition first_char (s : string) : option ascii :=
  match s with String a _ => Some a | EmptyString => None end.

Fixpoint last_char (s : string) : option ascii :=
  match s with
  | EmptyString => None
  | String a EmptyString => Some a
  | String _ s' => last_char s'
  end.

(** Every quote of [s] comes right after a backslash. *)
Fixpoint quotes_escaped (s : string) : bool :=
  match s with
  | EmptyString => true
  | String a s' =>
      if Ascii.eqb a Js.quote then false
      else if Ascii.eqb a Js.backslash then
        match s' with
        | String b s'' =>
            if Ascii.eqb b Js.quote then quotes_escaped s'' else quotes_escaped s'
        | EmptyString => true
        end
      else quotes_escaped s'
  end.

Section Notions.

Context {W : Type} `{Network W}.

Implicit Types (st : Client (W := W)) (o : DriveOptions) (p : Params).

(** The state after a token exchange whose answer [result] had no truthy
    [error]. *)
Definition refreshed (time : Z) (result : TokenBody) st : Client :=
  let now := date_now (world st) in
  let o := options st in
  let st' :=
    set_options {| client_id := client_id o; client_secret := client_secret o;
                   refresh_token := refresh_token o; root_id := root_id o;
                   access_token := token_access_token result;
                   expires_on := Some (expiry now (token_expires_in result));
                   logger := logger o |} st in
  if truthy_bool (logger o) then push_log (LogAuthorized (now - time)) st' else st'.

(** One round of [request]: lines 212 to 220, up to the decoded body. *)
Definition attempt p : M (Z * FilesBody) :=
  bind authorize (fun _ =>
  bind get_options (fun o =>
  fetch_DRIVE (access_token o) (stringify p))).

(** [throttled p k st st']: from [st], [k] rounds in a row were answered
    with an error whose message starts with the rate-limit marker, and left
    the client in [st']. *)
Inductive throttled p : nat -> Client -> Client -> Prop :=
| throttled_O st : throttled p O st st
| throttled_S k st st1 st2 status message :
    attempt p st = (Ret (status, FilesError message), st1) ->
    Js.startsWith message RATE_LIMIT_MARKER = true ->
    throttled p k st1 st2 ->
    throttled p (S k) st st2.

(** The cumulative sub-path after one more segment: [fullPath += name + "/"]. *)
Definition extend (fullPath name : string) : string :=
  fullPath +:+ name +:+ "/".

(** Every cumulative sub-path of [pre], starting below [base], holds an
    object in the cache [c]. *)
Fixpoint cached_along (c : gmap string (option RemoteObject)) (base : string)
    (pre : list string) : bool :=
  match pre with
  | [] => true
  | s :: pre' =>
      match cache_read c (extend base s) with
      | Some _ => cached_along c (extend base s) pre'
      | None => false
      end
  end.

(** The state after the segment query for [fullPath] returned [r]: the
    first file, or [undefined], is stored and the timing is logged. *)
Definition stored (time : Z) (fullPath : string) (r : FilesResult) st : Client :=
  let st' := set_pathCache (<[fullPath := head (files r)]> (pathCache st)) st in
  if truthy_bool (logger (options st))
  then push_log (LogMetadata fullPath (date_now (world st) - time)) st'
  else st'.

(** [if (pageToken) params.pageToken = pageToken] *)
Definition with_token (tok : option string) p : Params :=
  if truthy_str tok then assign "pageToken" (JStr (default "" tok)) p else p.

(** The state after one page of a listing has been logged. *)
Definition listed (id : string) (time : Z) st : Client :=
  if truthy_bool (logger (options st))
  then push_log (LogFilelist id (date_now (world st) - time)) st
  else st.

(** Anything that can happen to a client: a call of one of its methods
    (the private ones too), a call of a closure handed out by [index], or a
    change of the world between two calls. *)
Inductive Op :=
| OpAuthorize
| OpRequest (fuel : nat) (params : Params)
| OpGetMetadata (fuel : nat) (path : string)
| OpListFiles (fuel : nat) (id : string)
| OpGetRawData (id range : string)
| OpIndex (fuel : nat) (path : option string)
| OpIndexList (fuel : nat) (path : option string)
| OpIndexRaw (fuel : nat) (path range : option string)
| OpWorld (w : W).

Definition run_op (op : Op) st : Client :=
  match op with
  | OpAuthorize => (authorize st).2
  | OpRequest fuel params => (request fuel params st).2
  | OpGetMetadata fuel path => (getMetadata fuel path st).2
  | OpListFiles fuel id => (listFiles fuel id st).2
  | OpGetRawData id range => (getRawData id range st).2
  | OpIndex fuel path => (index fuel path st).2
  | OpIndexList fuel path =>
      match index fuel path st with
      | (Ret v, st1) => (call_list fuel v st1).2
      | (_, st1) => st1
      end
  | OpIndexRaw fuel path range =>
      match index fuel path st with
      | (Ret v, st1) => (call_raw v range st1).2
      | (_, st1) => st1
      end
  | OpWorld w => set_world w st
  end.

Definition run_ops (ops : list Op) st : Client :=
  fold_left (fun st op => run_op op st) ops st.

(** The parameters of the listing query that carries the token [tok]
    (none for the first page). *)
Definition page_params (id : string) (tok : option string) : Params :=
  with_token tok (list_params id).

(** [serves id tok st pages st']: from [st], the listing queries of folder
    [id], the first one carrying [tok], are answered one after the other
    with [pages]; every page but the last names a next page; [st'] is the
    client after the last page has been logged. *)
Inductive serves (id : string) :
    option string -> Client -> list FilesResult -> Client -> Prop :=
| serves_last tok st status r st1 :
    attempt (page_params id tok) st = (Ret (status, FilesOk r), st1) ->
    truthy_str (nextPageToken r) = false ->
    serves id tok st [r] (listed id (date_now (world st)) st1)
| serves_next tok st status r st1 rs st2 :
    attempt (page_params id tok) st = (Ret (status, FilesOk r), st1) ->
    truthy_str (nextPageToken r) = true ->
    serves id (nextPageToken r) (listed id (date_now (world st)) st1) rs st2 ->
    serves id tok st (r :: rs) st2.

(** The queries a listing sends for [pages], the first with [tok]. *)
Fixpoint queries_for (id : string) (tok : option string)
    (pages : list FilesResult) : list Params :=
  match pages with
  | [] => []
  | r :: rs => stringify (page_params id tok) :: queries_for id (nextPageToken r) rs
  end.

(** A list cut into pages of [size] items; an empty list is one empty
    page. *)
Fixpoint chunks_fuel {A} (fuel size : nat) (l : list A) : list (list A) :=
  match fuel with
  | O => [l]
  | S fuel' =>
      if (length l <=? size)%nat then [l]
      else take size l :: chunks_fuel fuel' size (drop size l)
  end.

Definition chunks {A} (size : nat) (l : list A) : list (list A) :=
  chunks_fuel (length l) size l.

Definition ceil_div (n p : nat) : nat := ((n + p - 1) / p)%nat.


(** The key as the specification words it: the normalized path with the
    percent-escapes of every segment decoded (a definition that follows
    the specification, to be compared with the key of the code). *)
Definition decoded_key (path : string) : option string :=
  let segs :=
    List.filter (fun s => negb (String.eqb s "")) (Js.split Js.slash path) in
  match mapM Js.decodeURIComponent segs with
  | Some decoded => Some (fold_left extend decoded "/")
  | None => None
  end.

End Notions.

(** ** The query string as text

    [stringify] in full: each truthy pair becomes
    [encodeURIComponent(k) + "=" + encodeURIComponent(p[k])] and the pieces
    are joined with ampersands.  (Keys are not integer-like, so [for ... in]
    visits them in the order they were written.) *)

Module Uri.

(** The characters [encodeURIComponent] leaves as they are: letters,
    digits and [- _ . ! ~ * ' ( )]. *)
Definition unreserved (c : ascii) : bool :=
  let n := N_of_ascii c in
  (Js.in_range 48 57 n || Js.in_range 65 90 n || Js.in_range 97 122 n
   || N.eqb n 45 || N.eqb n 95 || N.eqb n 46 || N.eqb n 33 || N.eqb n 126
   || N.eqb n 42 || N.eqb n 39 || N.eqb n 40 || N.eqb n 41)%N.

(** Upper-case hexadecimal digit. *)
Definition hex_digit (n : N) : ascii :=
  if (n <? 10)%N then ascii_of_N (48 + n) else ascii_of_N (55 + n).

Definition escape_octet (c : ascii) : string :=
  let n := N_of_ascii c in
  String Js.percent
    (String (hex_digit (n / 16)) (String (hex_digit (n mod 16)) EmptyString)).

(** [encodeURIComponent] on UTF-8 text: every octet of a character that is
    not unreserved is written as an escape.  (A lone surrogate, on which
    JavaScript throws, has no UTF-8 form and is outside the model.) *)
Fixpoint encodeURIComponent (s : string) : string :=
  match s with
  | EmptyString => EmptyString
  | String c s' =>
      if unreserved c then String c (encodeURIComponent s')
      else escape_octet c +:+ encodeURIComponent s'
  end.

(** [k] raw octets from the head of a string. *)
Fixpoint take_octets (k : nat) (s : string) : option (list N * string) :=
  match k with
  | O => Some ([], s)
  | S k' =>
      match s with
      | EmptyString => None
      | String c s' =>
          match take_octets k' s' with
          | Some (bs, rest) => Some (N_of_ascii c :: bs, rest)
          | None => None
          end
      end
  end.

(** Well-formed UTF-8 text: a sequence of ASCII characters and of
    well-formed multi-octet sequences (whose trailing octets all have the
    high bit set). *)
Fixpoint well_formed_fuel (fuel : nat) (s : string) : bool :=
  match fuel with
  | O => match s with EmptyString => true | _ => false end
  | S fuel' =>
      match s with
      | EmptyString => true
      | String c s' =>
          let b := N_of_ascii c in
          if (b <? 128)%N then well_formed_fuel fuel' s'
          else
            match Js.utf8_len b with
            | None => false
            | Some n =>
                match take_octets (pred n) s' with
                | None => false
                | Some (bs, rest) =>
                    Js.valid_utf8 (b :: bs)
                    && forallb (fun x => (128 <=? x)%N) bs
                    && well_formed_fuel fuel' rest
                end
            end
      end
  end.

Definition well_formed (s : string) : bool :=
  well_formed_fuel (String.length s) s.

(** [String(v)] for the values of a parameter record; integers print in
    decimal. *)
(** Does the character occur in the string? *)
Fixpoint occurs (x : ascii) (s : string) : bool :=
  match s with
  | EmptyString => false
  | String c s' => Ascii.eqb c x || occurs x s'
  end.

Definition to_string (v : JsVal) : string :=
  match v with
  | JStr s => s
  | JNum n => NilZero.string_of_int (Z.to_int n)
  | JBool true => "true"
  | JBool false => "false"
  end.

Definition query_piece (kv : string * JsVal) : string :=
  encodeURIComponent kv.1 +:+ "=" +:+ encodeURIComponent (to_string kv.2).

(** The string [stringify] returns. *)
Definition query_text (p : Params) : string :=
  String.concat "&" (map query_piece (stringify p)).

(** Reading a query string back, as its receiver does: cut at the
    ampersands, cut each piece at its equals sign, decode both sides. *)
Definition parse_piece (piece : string) : option (string * string) :=
  match Js.split "="%char piece with
  | [k; v] =>
      match Js.decodeURIComponent k, Js.decodeURIComponent v with
      | Some k', Some v' => Some (k', v')
      | _, _ => None
      end
  | _ => None
  end.

Definition parse_query (text : string) : option (list (string * string)) :=
  mapM parse_piece (Js.split "&"%char text).

End Uri.

(** ** More notions *)

(** Number of occurrences of a character. *)
Fixpoint count_char (x : ascii) (s : string) : nat :=
  match s with
  | EmptyString => O
  | String c s' => (if Ascii.eqb c x then 1 else 0) + count_char x s'
  end.

(** [n] times the character [c]. *)
Fixpoint repeat_char (n : nat) (c : ascii) : string :=
  match n with
  | O => EmptyString
  | S n' => String c (repeat_char n' c)
  end.

(** The pair a truthy string value leaves in a query. *)
Definition present (k v : string) : list (string * string) :=
  if String.eqb v "" then [] else [(k, v)].

Section MoreNotions.

Context {W : Type} `{Network W}.

Implicit Types (st : Client (W := W)) (p : Params).

(** [streams id tok st pages tok' st']: from [st], the listing queries of
    folder [id], the first one carrying [tok], are answered with [pages],
    every one of which names a next page; [tok'] is the token the next
    query will carry and [st'] the client before that query. *)
Inductive streams (id : string) :
    option string -> Client -> list FilesResult -> option string -> Client -> Prop :=
| streams_nil tok st : streams id tok st [] tok st
| streams_cons tok st status r st1 rs tok' st2 :
    attempt (page_params id tok) st = (Ret (status, FilesOk r), st1) ->
    truthy_str (nextPageToken r) = true ->
    streams id (nextPageToken r) (listed id (date_now (world st)) st1) rs tok' st2 ->
    streams id tok st (r :: rs) tok' st2.

End MoreNotions.

(** ** oauth.ts: the class [GoogleOAuth]

    The parts of the class that are this repository's own: the
    authorization link and the splitting of an id token.  Base64url and
    JSON decoding, the certificate fetch and the signature check belong to
    imported modules and are taken as parameters. *)

Module OAuth.

Definition OAUTH_URL : string := "https://accounts.google.com/o/oauth2".

Record Options := {
  client_id : string;
  client_secret : string;
  redirect_uri : string;
  scopes : list string
}.

(** The record passed to [#stringify] in [buildAuthLink];
    [scopes.join(' ')] is the scopes separated by single spaces. *)
Definition auth_params (o : Options) : Params :=
  [("client_id", JStr (client_id o));
   ("redirect_uri", JStr (redirect_uri o));
   ("scope", JStr (String.concat " " (scopes o)));
   ("response_type", JStr "code");
   ("access_type", JStr "offline")].

Definition buildAuthLink (o : Options) : string :=
  OAUTH_URL +:+ "/auth?" +:+ Uri.query_text (auth_params o).

(** What the methods throw or log. *)
Inductive Raised :=
| Rejected (status : Z) (message : string)   (* [throw { status, message }] *)
| Garbled                                    (* base64url or JSON decoding threw *)
| External.                                  (* the fetch or the check threw *)

Section IdToken.

(** [J]: decoded JSON values; [decode_segment s] is
    [JSON.parse(textDecode(base64UrlDecode(s)))], [None] when it throws. *)
Variable J : Type.
Variable decode_segment : string -> option J.

Record IdToken := {
  header : J;
  payload : J;
  signature : string
}.

Definition decodeIdToken (token : string) : Raised + IdToken :=
  if negb (truthy_str (Some token)) then inl (Rejected 400 "Undefined token")
  else
    match Js.split "."%char token with
    | [s0; s1; s2] =>
        match decode_segment s0 with
        | None => inl Garbled
        | Some h =>
            match decode_segment s1 with
            | None => inl Garbled
            | Some p => inr {| header := h; payload := p; signature := s2 |}
            end
        end
    | _ => inl (Rejected 400 "Not enough or too many segment")
    end.

(** [W]: the world; [V]: verified payloads.  [check_signature token header]
    stands for the rest of the [try] block of [verifyIdToken]: reading
    [header.kid], fetching the certificates, and [verify(token, cert[kid])];
    [None] when any of them throws. *)
Variables W V : Type.
Variable check_signature : string -> J -> W -> option V * W.

Record Session := {
  world : W;
  console : list Raised
}.

(** [undefined] ([None]) after a logged error. *)
Definition verifyIdToken (token : string) (st : Session) : option V * Session :=
  match decodeIdToken token with
  | inl e => (None, {| world := world st; console := console st ++ [e] |})
  | inr decoded =>
      match check_signature token (header decoded) (world st) with
      | (Some v, w) => (Some v, {| world := w; console := console st |})
      | (None, w) => (None, {| world := w; console := console st ++ [External] |})
      end
  end.

End IdToken.

End OAuth.

(** ** More scenarios *)

Module Cases.

Import Scripted.

(** The token endpoint grants a token of two minutes. *)
Definition short_lived : Client :=
  constructor credentials
    {| clock := 5;
       token_replies := [Answer 200 (TokenGranted "t1" 120);
                         Answer 200 (TokenGranted "t2" 120)];
       files_replies := []; media_replies := [] |}.

(** A file at [a b], and its content at the media endpoint. *)
Definition readable : Client :=
  constructor
    {| client_id := "id"; client_secret := "secret"; refresh_token := "refresh";
       root_id := None; access_token := Some "tok";
       expires_on := Some (Num 1000000);
       logger := None |}
    {| clock := 1000; token_replies := [];
       files_replies := [page [file_ab] None];
       media_replies := [Answer 206 (MediaStream "bytes")] |}.

Definition view_ab : IndexView :=
  {| meta := file_ab; isFolder := false; list_cap := None;
     raw_cap := Some MkRawFn |}.

(** The first page of a listing is served, the second fails. *)
Definition broken_listing : Client :=
  authorized [page [f1; f2] (Some "next");
              Answer 500 (FilesError "Backend Error")].

(** A file whose name has a slash and a quote. *)
Definition odd_name : string := "a/b's".

Definition with_odd_name : Client :=
  authorized [page [file "3" odd_name "text/plain"] None].

Definition root_view : IndexView :=
  {| meta := root_object "root"; isFolder := true;
     list_cap := Some MkListFn; raw_cap := None |}.

Definition app : OAuth.Options :=
  {| OAuth.client_id := "id.apps.example";
     OAuth.client_secret := "secret";
     OAuth.redirect_uri := "http://example.com/redirect_uri";
     OAuth.scopes := ["email"; "drive.readonly"] |}.

End Cases.

(** ** Properties *)

Section Facts.

Context {W : Type} `{Network W}.

Implicit Types (st : Client (W := W)) (o : DriveOptions) (p : Params).

Ltac unfold_m :=
  unfold bind, ret, throw, diverge, get_options, Date_now, log, cache_get,
    cache_set, store_token, fetch_TOKEN, fetch_DRIVE, fetch_MEDIA, settle in *.

Lemma token_calls_app t1 t2 :
  token_calls (t1 ++ t2) = (token_calls t1 + token_calls t2)%nat.
Proof. unfold token_calls. by rewrite filter_app, length_app. Qed.

Lemma token_calls_one body : token_calls [TokenCall body] = 1%nat.
Proof. reflexivity. Qed.

Lemma files_queries_app t1 t2 :
  files_queries (t1 ++ t2) = files_queries t1 ++ files_queries t2.
Proof. unfold files_queries. apply omap_app. Qed.

(** *** [authorize] *)

Lemma authorize_fresh st :
  token_fresh (options st) (date_now (world st)) = true ->
  authorize st = (Ret tt, st).
Proof. intros Hf. unfold authorize. unfold_m. by rewrite Hf. Qed.

Lemma authorize_stale st :
  token_fresh (options st) (date_now (world st)) = false ->
  authorize st =
    let body := refresh_body (options st) in
    let r := fetch_token body (world st) in
    let st1 := push_call (TokenCall body) (set_world r.2 st) in
    match r.1 with
    | Broken => (Throw FetchError, st1)
    | Answer status result =>
        if truthy_str (token_error result)
        then (Throw (failure status (token_error_description result)), st1)
        else (Ret tt, refreshed (date_now (world st)) result st1)
    end.
Proof.
  intros Hf. unfold authorize. unfold_m. rewrite Hf. simpl.
  destruct (fetch_token _ _) as [[status result|] w']; simpl; try done.
  by destruct (truthy_str (token_error result)).
Qed.

Lemma token_fresh_true o now e :
  expires_on o = Some (Num e) -> e <> 0 -> now < e -> token_fresh o now = true.
Proof.
  intros He Hz Hlt. unfold token_fresh. rewrite He. simpl.
  apply andb_true_iff. split.
  - apply negb_true_iff. by apply Z.eqb_neq.
  - by apply Z.ltb_lt.
Qed.

Lemma token_fresh_false o now :
  (forall e, expires_on o = Some (Num e) -> e = 0 \/ e <= now) ->
  token_fresh o now = false.
Proof.
  intros Hs. unfold token_fresh. destruct (expires_on o) as [[e|]|]; try done.
  simpl. destruct (Hs e eq_refl) as [->|Hle]; [done|].
  apply andb_false_iff. right. by apply Z.ltb_ge.
Qed.

Lemma refreshed_fields time tok life st :
  let st' := refreshed time (TokenGranted tok life) st in
  world st' = world st /\ trace st' = trace st /\ pathCache st' = pathCache st
  /\ access_token (options st') = Some tok
  /\ expires_on (options st') = Some (Num (date_now (world st) + (life - 300) * 1000)).
Proof. unfold refreshed. simpl. by destruct (truthy_bool _). Qed.

(** Whatever [authorize] does, it leaves the path cache alone; it adds one
    call, a token exchange, to the trace unless the token is fresh. *)
Lemma authorize_frame st :
  pathCache (authorize st).2 = pathCache st
  /\ trace (authorize st).2
     = trace st ++ (if token_fresh (options st) (date_now (world st)) then []
                    else [TokenCall (refresh_body (options st))]).
Proof.
  destruct (token_fresh (options st) (date_now (world st))) eqn:Hf.
  - rewrite authorize_fresh by done. simpl. by rewrite app_nil_r.
  - rewrite authorize_stale by done. simpl.
    destruct (fetch_token _ _) as [[status result|] w']; simpl; auto.
    destruct (truthy_str (token_error result)); simpl; auto.
    unfold refreshed. simpl. by destruct (truthy_bool _).
Qed.

(** *** Token lifecycle *)

(** C4.  [authorize] returns at once, with no network call, when the held
    expiry is set (a non-zero number) and later than the clock.  When the
    expiry is unset or has passed it performs one token exchange, and a
    granted exchange stores the new token with the expiry [now + (lifetime -
    300) * 1000] milliseconds, [now] read when the answer has arrived.  So,
    starting without a valid token, a granted call followed by a call before
    the stored expiry make one exchange in total, and a call at or after the
    expiry makes exactly one more. *)
Theorem authorize_token_lifecycle st :
  (forall e, expires_on (options st) = Some (Num e) -> e <> 0 ->
     date_now (world st) < e -> authorize st = (Ret tt, st))
  /\ ((forall e, expires_on (options st) = Some (Num e) ->
         e = 0 \/ e <= date_now (world st)) ->
      trace (authorize st).2
        = trace st ++ [TokenCall (refresh_body (options st))]
      /\ (forall status tok life,
            (fetch_token (refresh_body (options st)) (world st)).1
              = Answer status (TokenGranted tok life) ->
            (authorize st).1 = Ret tt
            /\ access_token (options (authorize st).2) = Some tok
            /\ expires_on (options (authorize st).2)
               = Some (Num (date_now (world (authorize st).2)
                            + (life - 300) * 1000)))
      /\ (forall st1 e w2 w3,
            authorize st = (Ret tt, st1) ->
            expires_on (options st1) = Some (Num e) ->
            0 <= date_now w2 < e -> e <= date_now w3 ->
            authorize (set_world w2 st1) = (Ret tt, set_world w2 st1)
            /\ token_calls (trace st1) = S (token_calls (trace st))
            /\ token_calls (trace (authorize (set_world w3 st1)).2)
               = S (S (token_calls (trace st))))).
Proof.
  split.
  - intros e He Hz Hlt. apply authorize_fresh. by eapply token_fresh_true.
  - intros Hstale. pose proof (token_fresh_false _ _ Hstale) as Hf.
    assert (Htr : trace (authorize st).2
                  = trace st ++ [TokenCall (refresh_body (options st))]).
    { pose proof (proj2 (authorize_frame st)) as Htr. by rewrite Hf in Htr. }
    split; [done|]. split.
    + intros status tok life Hr. rewrite authorize_stale by done. simpl.
      destruct (fetch_token _ _) as [r w']. simpl in Hr. subst r. simpl.
      unfold refreshed. simpl. by destruct (truthy_bool _).
    + intros st1 e w2 w3 Hst1 He [H0 Hlt] Hge.
      rewrite Hst1 in Htr. simpl in Htr.
      assert (Hfresh : authorize (set_world w2 st1) = (Ret tt, set_world w2 st1)).
      { apply authorize_fresh.
        apply (token_fresh_true _ _ e); simpl; [exact He|lia|lia]. }
      split; [done|]. split.
      * rewrite Htr, token_calls_app, token_calls_one. lia.
      * assert (Hf3 : token_fresh (options (set_world w3 st1))
                        (date_now (world (set_world w3 st1))) = false).
        { apply token_fresh_false. simpl. intros e' He'.
          rewrite He in He'. injection He' as <-. by right. }
        rewrite (proj2 (authorize_frame (set_world w3 st1))), Hf3. simpl.
        rewrite Htr, !token_calls_app, !token_calls_one. lia.
Qed.

(** *** [request] *)

Lemma request_unfold fuel p st :
  request (S fuel) p st =
    match attempt p st with
    | (Ret (status, FilesError message), st1) =>
        if Js.startsWith message RATE_LIMIT_MARKER then request fuel p st1
        else (Throw (Failure status message), st1)
    | (Ret (_, FilesOk result), st1) => (Ret result, st1)
    | (Throw e, st1) => (Throw e, st1)
    | (Diverge, st1) => (Diverge, st1)
    end.
Proof.
  simpl. unfold attempt, bind, get_options.
  destruct (authorize st) as [[[]| |] st0]; try done.
  destruct (fetch_DRIVE _ _ st0) as [[[status [m|r]]| |] st1]; simpl; try done.
  by destruct (Js.startsWith _ _).
Qed.

(** A round adds to the trace at most one token exchange and then, unless
    the exchange failed, one call to the files endpoint with the query of
    [p]. *)
Lemma attempt_trace p st x st1 :
  attempt p st = (Ret x, st1) ->
  pathCache st1 = pathCache st
  /\ files_queries (trace st1) = files_queries (trace st) ++ [stringify p].
Proof.
  unfold attempt, bind, get_options. intros Ha.
  pose proof (authorize_frame st) as [Hc Ht].
  destruct (authorize st) as [[[]| |] st0]; try done. simpl in *.
  unfold fetch_DRIVE, settle in Ha.
  destruct (fetch_files _ _ _) as [[status body|] w']; simpl in Ha; [|done].
  injection Ha as _ <-. simpl. split; [done|].
  rewrite files_queries_app. simpl. f_equal.
  rewrite Ht, files_queries_app.
  destruct (token_fresh _ _); simpl; by rewrite app_nil_r.
Qed.

Lemma throttled_trace p k st st' :
  throttled p k st st' ->
  pathCache st' = pathCache st
  /\ files_queries (trace st')
     = files_queries (trace st) ++ replicate k (stringify p).
Proof.
  induction 1 as [st|k st st1 st2 status message Ha Hm _ [IHc IHt]].
  - simpl. by rewrite app_nil_r.
  - apply attempt_trace in Ha as [Hc Ht]. split; [congruence|].
    rewrite IHt, Ht, <- app_assoc. done.
Qed.

(** As long as the server keeps throttling, [request] keeps asking. *)
Lemma request_throttled p k st st' fuel :
  throttled p k st st' ->
  request (k + fuel) p st = request fuel p st'.
Proof.
  induction 1 as [st|k st st1 st2 status message Ha Hm _ IH]; [done|].
  replace (S k + fuel)%nat with (S (k + fuel)) by lia.
  rewrite request_unfold, Ha, Hm. exact IH.
Qed.

(** C3.  If [k] rounds in a row are answered with an error that starts with
    the rate-limit marker and the next round is answered otherwise, then
    [request] (given fuel for [k + 1] rounds) has sent the same query [k + 1]
    times and ends as that last round does: with the decoded result when it
    carries no error, and throwing the HTTP status and the server's message
    when it carries an error that does not start with the marker. *)
Theorem request_rate_limit_retry p k st st1 st2 status body fuel :
  throttled p k st st1 ->
  attempt p st1 = (Ret (status, body), st2) ->
  (k < fuel)%nat ->
  files_queries (trace st2)
    = files_queries (trace st) ++ replicate (S k) (stringify p)
  /\ match body with
     | FilesOk result => request fuel p st = (Ret result, st2)
     | FilesError message =>
         Js.startsWith message RATE_LIMIT_MARKER = false ->
         request fuel p st = (Throw (Failure status message), st2)
     end.
Proof.
  intros Hk Ha Hfuel. split.
  - apply throttled_trace in Hk as [_ Hk]. apply attempt_trace in Ha as [_ Ha].
    rewrite Ha, Hk, <- app_assoc. f_equal.
    change [stringify p] with (replicate 1 (stringify p)).
    rewrite <- replicate_add. f_equal. lia.
  - replace fuel with (k + S (fuel - S k))%nat by lia.
    rewrite (request_throttled _ _ _ _ _ Hk), request_unfold, Ha.
    destruct body as [message|result]; [|done].
    by intros ->.
Qed.

(** The retry has no bound of its own: under [k] throttled rounds, fuel
    for [k] rounds is used up without an error being raised. *)
Lemma request_throttled_out_of_fuel p k st st' :
  throttled p k st st' -> request k p st = (Diverge, st').
Proof.
  intros Hk. replace k with (k + 0)%nat by lia.
  by rewrite (request_throttled _ _ _ _ _ Hk).
Qed.

(** *** Frames: what each method leaves alone *)

Lemma attempt_frame p st :
  pathCache (attempt p st).2 = pathCache st
  /\ exists c l, trace (attempt p st).2 = trace st ++ c :: l.
Proof.
  unfold attempt, bind, get_options.
  pose proof (authorize_frame st) as [Hc Ht].
  destruct (authorize st) as [[[]| |] st0] eqn:Ha; simpl in *.
  - unfold fetch_DRIVE, settle.
    destruct (fetch_files _ _ _) as [[status body|] w']; simpl;
      (split; [done|]; rewrite Ht;
       destruct (token_fresh _ _); simpl; [rewrite app_nil_r|rewrite <- app_assoc];
       simpl; by eauto).
  - split; [done|]. rewrite Ht.
    destruct (token_fresh _ _) eqn:Hf; [|by eauto].
    rewrite authorize_fresh in Ha by done. done.
  - split; [done|]. rewrite Ht.
    destruct (token_fresh _ _) eqn:Hf; [|by eauto].
    rewrite authorize_fresh in Ha by done. done.
Qed.

Lemma request_frame fuel p st :
  pathCache (request fuel p st).2 = pathCache st
  /\ trace st `prefix_of` trace (request fuel p st).2.
Proof.
  revert st. induction fuel as [|fuel IH]; intros st; [done|].
  rewrite request_unfold.
  pose proof (attempt_frame p st) as [Hc (c & l & Ht)].
  assert (Hp : trace st `prefix_of` trace (attempt p st).2).
  { rewrite Ht. by apply prefix_app_r. }
  destruct (attempt p st) as [[[status [m|r]]| |] st1]; simpl in *; try done.
  destruct (Js.startsWith _ _); [|done].
  destruct (IH st1) as [IHc IHt]. split; [congruence|]. by etrans.
Qed.

(** A call of [request] with fuel left reaches the network. *)
Lemma request_calls fuel p st :
  exists c l, trace (request (S fuel) p st).2 = trace st ++ c :: l.
Proof.
  rewrite request_unfold.
  pose proof (attempt_frame p st) as [_ (c & l & Ht)].
  destruct (attempt p st) as [[[status [m|r]]| |] st1]; simpl in *; eauto.
  destruct (Js.startsWith _ _); [|by eauto].
  destruct (request_frame fuel p st1) as [_ [l' Hl']].
  exists c, (l ++ l'). rewrite Hl', Ht, <- app_assoc. done.
Qed.

Lemma listFiles_loop_unfold fuel n id p tok acc st :
  listFiles_loop fuel (S n) id p tok acc st =
    match request fuel (with_token tok p) st with
    | (Ret r, st1) =>
        let st2 := listed id (date_now (world st)) st1 in
        if truthy_str (nextPageToken r)
        then listFiles_loop fuel n id (with_token tok p) (nextPageToken r)
               (acc ++ files r) st2
        else (Ret (acc ++ files r), st2)
    | (Throw e, st1) => (Throw e, st1)
    | (Diverge, st1) => (Diverge, st1)
    end.
Proof.
  simpl. unfold bind, Date_now, log, ret, with_token, listed.
  destruct (request _ _ _) as [[r| |] st1]; try done.
  by destruct (truthy_str (nextPageToken r)).
Qed.

Lemma listed_fields id time st :
  pathCache (listed id time st) = pathCache st
  /\ trace (listed id time st) = trace st
  /\ world (listed id time st) = world st
  /\ options (listed id time st) = options st.
Proof. unfold listed. by destruct (truthy_bool _). Qed.

Lemma listFiles_loop_frame fuel n id p tok acc st :
  pathCache (listFiles_loop fuel n id p tok acc st).2 = pathCache st
  /\ trace st `prefix_of` trace (listFiles_loop fuel n id p tok acc st).2.
Proof.
  revert p tok acc st. induction n as [|n IH]; intros p tok acc st; [done|].
  rewrite listFiles_loop_unfold.
  pose proof (request_frame fuel (with_token tok p) st) as [Hc Ht].
  destruct (request _ _ _) as [[r| |] st1]; simpl in *; try done.
  pose proof (listed_fields id (date_now (world st)) st1) as (Lc & Lt & _).
  destruct (truthy_str (nextPageToken r)); simpl.
  - destruct (IH (with_token tok p) (nextPageToken r) (acc ++ files r)
               (listed id (date_now (world st)) st1)) as [IHc IHt].
    split; [congruence|]. etrans; [exact Ht|]. by rewrite <- Lt.
  - split; [congruence|]. by rewrite Lt.
Qed.

(** *** The segment walk of [getMetadata] *)

Lemma stored_fields time key r st :
  pathCache (stored time key r st) = <[key := head (files r)]> (pathCache st)
  /\ trace (stored time key r st) = trace st
  /\ world (stored time key r st) = world st
  /\ options (stored time key r st) = options st.
Proof. unfold stored. by destruct (truthy_bool _). Qed.

Lemma fetch_segment_unfold fuel m name decoded key st :
  Js.decodeURIComponent name = Some decoded ->
  fetch_segment fuel (Some m) name key st =
    match request fuel (metadata_query (file_id m) (Js.escape_quotes decoded)) st with
    | (Ret r, st1) => (Ret tt, stored (date_now (world st)) key r st1)
    | (Throw e, st1) => (Throw e, st1)
    | (Diverge, st1) => (Diverge, st1)
    end.
Proof.
  intros Hd. unfold fetch_segment, bind, Date_now, cache_set, log. rewrite Hd.
  unfold stored. by destruct (request _ _ _) as [[r| |] st1].
Qed.

(** [fetch_segment] writes the cache at its own key only. *)
Lemma fetch_segment_frame fuel md name key st :
  (forall k, k <> key ->
     pathCache (fetch_segment fuel md name key st).2 !! k = pathCache st !! k)
  /\ trace st `prefix_of` trace (fetch_segment fuel md name key st).2.
Proof.
  unfold fetch_segment, bind, Date_now, throw.
  destruct (Js.decodeURIComponent name) as [decoded|]; [|done].
  destruct md as [m|]; [|done].
  match goal with |- context [request fuel ?q st] =>
    pose proof (request_frame fuel q st) as [Hc Ht];
    destruct (request fuel q st) as [[r| |] st1] end; simpl in *;
    try (split; [by intros; rewrite Hc|done]).
  unfold cache_set, log. simpl. split.
  - intros k Hk. destruct (truthy_bool _); simpl;
      by rewrite lookup_insert_ne, Hc.
  - by destruct (truthy_bool _).
Qed.

Lemma walk_unfold fuel name rest base md st :
  walk fuel (name :: rest) base md st =
    let key := extend base name in
    match cache_read (pathCache st) key with
    | Some m => walk fuel rest key (Some m) st
    | None =>
        match fetch_segment fuel md name key st with
        | (Ret _, st1) =>
            match cache_read (pathCache st1) key with
            | Some m => walk fuel rest key (Some m) st1
            | None => (Ret tt, st1)
            end
        | (Throw e, st1) => (Throw e, st1)
        | (Diverge, st1) => (Diverge, st1)
        end
    end.
Proof.
  simpl. unfold bind, cache_get, ret, extend.
  destruct (cache_read (pathCache st) _) as [m|] eqn:Hm; simpl.
  - by rewrite Hm.
  - destruct (fetch_segment _ _ _ _ _) as [[[]| |] st1]; try done.
    by destruct (cache_read (pathCache st1) _).
Qed.

(** Segments whose cumulative sub-paths hold objects are passed without a
    step of the world. *)
Lemma walk_cached fuel pre rest base md st :
  cached_along (pathCache st) base pre = true ->
  md = cache_read (pathCache st) base ->
  walk fuel (pre ++ rest) base md st
  = walk fuel rest (fold_left extend pre base)
      (cache_read (pathCache st) (fold_left extend pre base)) st.
Proof.
  revert base md. induction pre as [|s pre IH]; intros base md Hc Hmd.
  - simpl. by rewrite Hmd.
  - simpl in Hc. change ((s :: pre) ++ rest) with (s :: (pre ++ rest)).
    rewrite walk_unfold. simpl.
    destruct (cache_read (pathCache st) (extend base s)) as [m|] eqn:Hm; [|done].
    rewrite (IH (extend base s) (Some m)); done.
Qed.

Lemma length_append (s1 s2 : string) :
  String.length (s1 +:+ s2) = (String.length s1 + String.length s2)%nat.
Proof. induction s1 as [|c s1 IH]; simpl; [done|by rewrite IH]. Qed.

Lemma extend_longer base name :
  (String.length base < String.length (extend base name))%nat.
Proof. unfold extend. rewrite !length_append. simpl. lia. Qed.

(** The walk writes only keys longer than the sub-path it starts from, and
    only adds calls to the trace. *)
Lemma walk_frame fuel subpath base md st :
  (forall k, (String.length k <= String.length base)%nat ->
     pathCache (walk fuel subpath base md st).2 !! k = pathCache st !! k)
  /\ trace st `prefix_of` trace (walk fuel subpath base md st).2.
Proof.
  revert base md st. induction subpath as [|name rest IH]; intros base md st.
  { done. }
  rewrite walk_unfold. simpl.
  pose proof (extend_longer base name) as Hlen.
  destruct (cache_read (pathCache st) (extend base name)) as [m|].
  { destruct (IH (extend base name) (Some m) st) as [IHc IHt].
    split; [|done]. intros k Hk. apply IHc. lia. }
  pose proof (fetch_segment_frame fuel md name (extend base name) st) as [Fc Ft].
  assert (Fc' : forall k, (String.length k <= String.length base)%nat ->
    pathCache (fetch_segment fuel md name (extend base name) st).2 !! k
    = pathCache st !! k).
  { intros k Hk. apply Fc. intros ->. lia. }
  destruct (fetch_segment _ _ _ _ _) as [[[]| |] st1]; simpl in *; try done.
  destruct (cache_read (pathCache st1) (extend base name)) as [m|]; [|done].
  destruct (IH (extend base name) (Some m) st1) as [IHc IHt].
  split; [|by etrans]. intros k Hk. rewrite IHc by lia. by apply Fc'.
Qed.

Lemma getMetadata_unfold fuel path st :
  getMetadata fuel path st =
    let key := join ["/"; path; "/"] in
    match cache_read (pathCache st) key with
    | Some m => (Ret (Some m), st)
    | None =>
        match walk fuel (Js.split Js.slash (trim key Js.slash)) "/"
                (cache_read (pathCache st) "/") st with
        | (Ret _, st1) => (Ret (cache_read (pathCache st1) key), st1)
        | (Throw e, st1) => (Throw e, st1)
        | (Diverge, st1) => (Diverge, st1)
        end
    end.
Proof.
  unfold getMetadata, bind, cache_get, ret. simpl.
  destruct (cache_read (pathCache st) _) as [m|] eqn:Hm; simpl.
  - by rewrite Hm.
  - by destruct (walk _ _ _ _ _) as [[[]| |] st1].
Qed.

Lemma getMetadata_frame fuel path st :
  (forall k, (String.length k <= 1)%nat ->
     pathCache (getMetadata fuel path st).2 !! k = pathCache st !! k)
  /\ trace st `prefix_of` trace (getMetadata fuel path st).2.
Proof.
  rewrite getMetadata_unfold. simpl.
  destruct (cache_read (pathCache st) _) as [m|]; [done|].
  match goal with |- context [walk fuel ?l ?b ?m st] =>
    pose proof (walk_frame fuel l b m st) as [Hc Ht];
    destruct (walk fuel l b m st) as [[[]| |] st1] end; done.
Qed.

(** *** A resolution that has to ask for a segment *)

Lemma cache_read_insert c key v k :
  cache_read (<[key := v]> c) k = if decide (key = k) then v else cache_read c k.
Proof.
  unfold cache_read. rewrite lookup_insert. by destruct (decide (key = k)).
Qed.

(** Storing [undefined] at a key that read as [undefined] changes no
    read. *)
Lemma cache_read_mark c key k :
  cache_read c key = None ->
  cache_read (<[key := None]> c) k = cache_read c k.
Proof.
  intros Hk. rewrite cache_read_insert. destruct (decide (key = k)); congruence.
Qed.

Lemma cached_along_ext c c' base pre :
  (forall k, cache_read c' k = cache_read c k) ->
  cached_along c' base pre = cached_along c base pre.
Proof.
  intros Hext. revert base. induction pre as [|s pre IH]; intros base; [done|].
  simpl. rewrite Hext. destruct (cache_read c _); [apply IH|done].
Qed.

(** The resolution of a path whose segments are [pre ++ s :: post], where
    the sub-paths along [pre] hold objects and the sub-path [P] ending in
    [s] reads as [undefined]: the query for [s] is issued under the
    parent's id. *)
Lemma getMetadata_miss fuel path st pre s post m decoded :
  let key := join ["/"; path; "/"] in
  let parent := fold_left extend pre "/" in
  Js.split Js.slash (trim key Js.slash) = pre ++ s :: post ->
  cached_along (pathCache st) "/" pre = true ->
  cache_read (pathCache st) parent = Some m ->
  cache_read (pathCache st) (extend parent s) = None ->
  cache_read (pathCache st) key = None ->
  Js.decodeURIComponent s = Some decoded ->
  getMetadata fuel path st =
    match request fuel (metadata_query (file_id m) (Js.escape_quotes decoded)) st with
    | (Ret r, st1) =>
        let st2 := stored (date_now (world st)) (extend parent s) r st1 in
        match head (files r) with
        | None => (Ret None, st2)
        | Some obj =>
            match walk fuel post (extend parent s) (Some obj) st2 with
            | (Ret _, st3) => (Ret (cache_read (pathCache st3) key), st3)
            | (Throw e, st3) => (Throw e, st3)
            | (Diverge, st3) => (Diverge, st3)
            end
        end
    | (Throw e, st1) => (Throw e, st1)
    | (Diverge, st1) => (Diverge, st1)
    end.
Proof.
  intros key parent Hsegs Hpre Hparent HP Hkey Hdec.
  rewrite getMetadata_unfold. fold key. simpl. rewrite Hkey, Hsegs.
  rewrite (walk_cached fuel pre (s :: post) "/" _ st Hpre eq_refl).
  fold parent. rewrite Hparent, walk_unfold. simpl. rewrite HP.
  rewrite (fetch_segment_unfold _ _ _ _ _ _ Hdec).
  pose proof (request_frame fuel
    (metadata_query (file_id m) (Js.escape_quotes decoded)) st) as [Hc _].
  destruct (request _ _ _) as [[r| |] st1]; simpl in *; try done.
  pose proof (stored_fields (date_now (world st)) (extend parent s) r st1)
    as (Sc & _).
  rewrite Sc, cache_read_insert. rewrite decide_True by done.
  destruct (head (files r)) as [obj|] eqn:Hhead; [done|].
  rewrite Sc, Hc, cache_read_mark by done. by rewrite Hkey.
Qed.

(** C1 (as the code has it).  When the query for the cumulative sub-path [P]
    returns no file, the resolution stores [undefined] under [P] (the key is
    present, the value is not an object), returns not-found, and issues no
    call beyond those of that one query: deeper segments are not asked for.
    The stored [undefined] reads like an absent key, so a later resolution
    of [P], or of any path that descends through [P], asks the server for
    [P]'s segment again; it returns not-found, again with no call for a
    deeper segment, if that query is empty again. *)
Theorem not_found_is_stored_and_asked_again
    fuel path st pre s post m decoded r st1 :
  let key := join ["/"; path; "/"] in
  let P := extend (fold_left extend pre "/") s in
  let q := metadata_query (file_id m) (Js.escape_quotes decoded) in
  Js.split Js.slash (trim key Js.slash) = pre ++ s :: post ->
  cached_along (pathCache st) "/" pre = true ->
  cache_read (pathCache st) (fold_left extend pre "/") = Some m ->
  cache_read (pathCache st) P = None ->
  cache_read (pathCache st) key = None ->
  Js.decodeURIComponent s = Some decoded ->
  request fuel q st = (Ret r, st1) ->
  files r = [] ->
  let st2 := stored (date_now (world st)) P r st1 in
  getMetadata fuel path st = (Ret None, st2)
  /\ pathCache st2 = <[P := None]> (pathCache st)
  /\ trace st2 = trace st1
  /\ forall fuel' path' post',
       let key' := join ["/"; path'; "/"] in
       Js.split Js.slash (trim key' Js.slash) = pre ++ s :: post' ->
       cache_read (pathCache st) key' = None ->
       (exists c l,
          trace (getMetadata (S fuel') path' st2).2 = trace st2 ++ c :: l)
       /\ (forall r' st3,
             request fuel' q st2 = (Ret r', st3) -> files r' = [] ->
             getMetadata fuel' path' st2
             = (Ret None, stored (date_now (world st2)) P r' st3)).
Proof.
  intros key P q Hsegs Hpre Hparent HP Hkey Hdec Hreq Hempty st2.
  pose proof (request_frame fuel q st) as [Hc _]. rewrite Hreq in Hc. simpl in Hc.
  pose proof (stored_fields (date_now (world st)) P r st1) as (Sc & St & _).
  fold st2 in Sc, St. rewrite Hempty, Hc in Sc. simpl in Sc.
  assert (Hread : forall k, cache_read (pathCache st2) k = cache_read (pathCache st) k).
  { intros k. rewrite Sc. by apply cache_read_mark. }
  split; [|split; [done|split; [done|]]].
  { rewrite (getMetadata_miss fuel path st pre s post m decoded) by done.
    fold q. rewrite Hreq. simpl. by rewrite Hempty. }
  intros fuel' path' post' key' Hsegs' Hkey'.
  assert (Hmiss : forall n, getMetadata n path' st2 = _) by
    (intros n; apply (getMetadata_miss n path' st2 pre s post' m decoded);
     [done|by rewrite (cached_along_ext (pathCache st))
     |by rewrite Hread|by rewrite Hread|by rewrite Hread|done]).
  split.
  - rewrite Hmiss. fold q P.
    destruct (request_calls fuel' q st2) as (c & l & Hl).
    destruct (request (S fuel') q st2) as [[r'| |] st3]; simpl in *; eauto.
    pose proof (stored_fields (date_now (world st2)) P r' st3) as (_ & St' & _).
    destruct (head (files r')) as [obj|]; simpl.
    + match goal with |- context [walk ?n ?l ?b ?md ?s] =>
        pose proof (walk_frame n l b md s) as [_ [l' Hl']];
        destruct (walk n l b md s) as [[[]| |] st4] end; simpl in *;
        exists c, (l ++ l'); by rewrite Hl', St', Hl, <- app_assoc.
    + exists c, l. by rewrite St'.
  - intros r' st3 Hreq' Hempty'. rewrite Hmiss. fold q P.
    rewrite Hreq'. simpl. by rewrite Hempty'.
Qed.

(** *** Normalized paths *)

Lemma join_unfold path :
  join ["/"; path; "/"] = Js.collapse_slashes (String Js.slash (path +:+ "/")).
Proof. reflexivity. Qed.

Lemma collapse_first s :
  first_char (Js.collapse_slashes s) = first_char s.
Proof.
  induction s as [|c s IH]; [done|]. simpl.
  destruct (Ascii.eqb c Js.slash) eqn:Hc; [|done].
  destruct s as [|c' s']; [done|].
  destruct (Ascii.eqb c' Js.slash) eqn:Hc'; [|done].
  rewrite IH. simpl. apply Ascii.eqb_eq in Hc, Hc'. congruence.
Qed.

Lemma no_double_cons a b s :
  no_double_slash (String a (String b s))
  = negb (Ascii.eqb a Js.slash && Ascii.eqb b Js.slash)
    && no_double_slash (String b s).
Proof. reflexivity. Qed.

Lemma collapse_no_double s :
  no_double_slash (Js.collapse_slashes s) = true.
Proof.
  induction s as [|c s IH]; [done|].
  pose proof (collapse_first s) as Hfirst.
  change (Js.collapse_slashes (String c s)) with
    (if Ascii.eqb c Js.slash
     then match s with
          | String c' _ =>
              if Ascii.eqb c' Js.slash then Js.collapse_slashes s
              else String c (Js.collapse_slashes s)
          | EmptyString => String c EmptyString
          end
     else String c (Js.collapse_slashes s)).
  destruct (Ascii.eqb c Js.slash) eqn:Hc.
  - destruct s as [|c' s']; [done|].
    destruct (Ascii.eqb c' Js.slash) eqn:Hc'; [done|].
    destruct (Js.collapse_slashes (String c' s')) as [|b t]; [done|].
    simpl in Hfirst. injection Hfirst as ->.
    by rewrite no_double_cons, Hc, Hc', IH.
  - destruct (Js.collapse_slashes s) as [|b t]; [done|].
    by rewrite no_double_cons, Hc, IH.
Qed.

Lemma last_char_cons a s :
  s <> EmptyString -> last_char (String a s) = last_char s.
Proof. by destruct s. Qed.

Lemma collapse_nonempty s :
  s <> EmptyString -> Js.collapse_slashes s <> EmptyString.
Proof.
  intros Hs Hc. pose proof (collapse_first s) as Hf. rewrite Hc in Hf.
  by destruct s.
Qed.

Lemma collapse_last s :
  last_char (Js.collapse_slashes s) = last_char s.
Proof.
  induction s as [|c s IH]; [done|].
  destruct s as [|c' s']; [by simpl; destruct (Ascii.eqb c Js.slash)|].
  rewrite (last_char_cons c) by done.
  assert (Hne : Js.collapse_slashes (String c' s') <> EmptyString)
    by by apply collapse_nonempty.
  change (Js.collapse_slashes (String c (String c' s'))) with
    (if Ascii.eqb c Js.slash
     then if Ascii.eqb c' Js.slash then Js.collapse_slashes (String c' s')
          else String c (Js.collapse_slashes (String c' s'))
     else String c (Js.collapse_slashes (String c' s'))).
  destruct (Ascii.eqb c Js.slash), (Ascii.eqb c' Js.slash);
    rewrite ?last_char_cons by done; exact IH.
Qed.

Lemma last_char_snoc s a : last_char (s +:+ String a EmptyString) = Some a.
Proof.
  induction s as [|c s IH]; [done|].
  change (String c s +:+ String a EmptyString)
    with (String c (s +:+ String a EmptyString)).
  rewrite last_char_cons; [done|]. by destruct s.
Qed.

(** The key of a path starts with one slash, ends with one slash and has no
    two slashes in a row. *)
Lemma join_normal path :
  let key := join ["/"; path; "/"] in
  first_char key = Some Js.slash
  /\ last_char key = Some Js.slash
  /\ no_double_slash key = true.
Proof.
  simpl. rewrite join_unfold. split; [|split].
  - by rewrite collapse_first.
  - rewrite collapse_last.
    change (String Js.slash (path +:+ "/")) with (String Js.slash path +:+ "/").
    apply last_char_snoc.
  - apply collapse_no_double.
Qed.

Lemma split_nonempty s : Js.split Js.slash s <> [].
Proof.
  destruct s as [|c s]; [done|]. simpl.
  destruct (Ascii.eqb c Js.slash); [done|]. by destruct (Js.split Js.slash s).
Qed.

Lemma split_concat s : String.concat "/" (Js.split Js.slash s) = s.
Proof.
  induction s as [|c s IH]; [done|]. simpl.
  pose proof (split_nonempty s) as Hne.
  destruct (Js.split Js.slash s) as [|h t]; [done|].
  destruct (Ascii.eqb c Js.slash) eqn:Hc.
  - apply Ascii.eqb_eq in Hc. subst c.
    change (String.concat "/" (EmptyString :: h :: t))
      with (String Js.slash (String.concat "/" (h :: t))).
    by rewrite IH.
  - rewrite <- IH. by destruct t.
Qed.

Lemma append_cons x (a b : string) : String x a +:+ b = String x (a +:+ b).
Proof. reflexivity. Qed.

Lemma append_assoc (a b c : string) : (a +:+ b) +:+ c = a +:+ (b +:+ c).
Proof. induction a as [|x a IH]; [done|]. by rewrite !append_cons, IH. Qed.

Lemma fold_extend segs base :
  segs <> [] ->
  fold_left extend segs base = base +:+ String.concat "/" segs +:+ "/".
Proof.
  revert base. induction segs as [|s segs IH]; intros base Hne; [done|].
  destruct segs as [|s' segs]; [done|].
  change (fold_left extend (s :: s' :: segs) base)
    with (fold_left extend (s' :: segs) (extend base s)).
  rewrite IH by done. unfold extend.
  change (String.concat "/" (s :: s' :: segs))
    with (s +:+ "/" +:+ String.concat "/" (s' :: segs)).
  by rewrite !append_assoc.
Qed.

Lemma trim_right_slash t :
  no_double_slash t = true -> last_char t = Some Js.slash -> t <> "/" ->
  Js.trim_right Js.slash t +:+ "/" = t.
Proof.
  induction t as [|a t IH]; [done|]. intros Hnd Hlast Hne.
  destruct t as [|b t'].
  { simpl in Hlast. injection Hlast as ->. done. }
  rewrite last_char_cons in Hlast by done.
  change (no_double_slash (String a (String b t'))) with
    (negb (Ascii.eqb a Js.slash && Ascii.eqb b Js.slash)
     && no_double_slash (String b t')) in Hnd.
  apply andb_true_iff in Hnd as [Hab Hnd].
  change (Js.trim_right Js.slash (String a (String b t'))) with
    (match Js.trim_right Js.slash (String b t') with
     | EmptyString => if Ascii.eqb a Js.slash then EmptyString else String a EmptyString
     | r => String a r
     end).
  destruct (decide (String b t' = "/")) as [Heq|Hneq].
  - rewrite Heq in *. injection Heq as -> ->. simpl in *.
    destruct (Ascii.eqb a Js.slash); [done|]. done.
  - specialize (IH Hnd Hlast Hneq).
    destruct (Js.trim_right Js.slash (String b t')) as [|x r].
    + change (EmptyString +:+ "/") with "/" in IH. congruence.
    + by rewrite append_cons, IH.
Qed.

(** The cumulative sub-path of all the segments is the key itself. *)
Lemma segments_rebuild path :
  let key := join ["/"; path; "/"] in
  key <> "/" ->
  fold_left extend (Js.split Js.slash (trim key Js.slash)) "/" = key.
Proof.
  intros key Hne. rewrite fold_extend by apply split_nonempty.
  rewrite split_concat.
  destruct (join_normal path) as (Hf & Hl & Hnd). fold key in Hf, Hl, Hnd.
  destruct key as [|a t]; [done|]. simpl in Hf. injection Hf as ->.
  destruct t as [|b t]; [done|].
  rewrite last_char_cons in Hl by done.
  change (no_double_slash (String Js.slash (String b t))) with
    (negb (Ascii.eqb Js.slash Js.slash && Ascii.eqb b Js.slash)
     && no_double_slash (String b t)) in Hnd.
  apply andb_true_iff in Hnd as [Hb Hnd]. simpl in Hb.
  apply negb_true_iff in Hb.
  unfold trim. simpl. rewrite Hb.
  rewrite trim_right_slash; [done|done|done|].
  intros Heq. injection Heq as -> _. done.
Qed.

(** *** Resolving a path twice *)

Lemma fetch_segment_read fuel md name key st k :
  k <> key ->
  cache_read (pathCache (fetch_segment fuel md name key st).2) k
  = cache_read (pathCache st) k.
Proof.
  intros Hk. unfold cache_read.
  by rewrite (proj1 (fetch_segment_frame fuel md name key st) k Hk).
Qed.

(** An entry that reads as an object is never written again. *)
Lemma walk_keeps fuel subpath base md st k m :
  cache_read (pathCache st) k = Some m ->
  cache_read (pathCache (walk fuel subpath base md st).2) k = Some m.
Proof.
  revert base md st. induction subpath as [|name rest IH]; intros base md st Hk.
  { done. }
  rewrite walk_unfold. simpl.
  destruct (cache_read (pathCache st) (extend base name)) as [m'|] eqn:Hkey.
  { by apply IH. }
  assert (Hne : k <> extend base name) by congruence.
  pose proof (fetch_segment_read fuel md name (extend base name) st k Hne) as Hf.
  destruct (fetch_segment _ _ _ _ _) as [[[]| |] st1]; simpl in *;
    try congruence.
  destruct (cache_read (pathCache st1) (extend base name)) as [m'|].
  - apply IH. congruence.
  - simpl. congruence.
Qed.

(** A segment query that returned had a name that decodes and a parent. *)
Lemma fetch_segment_returned fuel md name key st u st1 :
  fetch_segment fuel md name key st = (Ret u, st1) ->
  exists decoded m,
    Js.decodeURIComponent name = Some decoded /\ md = Some m.
Proof.
  unfold fetch_segment, bind, Date_now, throw.
  destruct (Js.decodeURIComponent name) as [decoded|]; [|done].
  destruct md as [m|]; [|done]. eauto.
Qed.

(** After a walk that ended with the full sub-path reading as [undefined],
    a second walk reaches the network. *)
Lemma walk_again fuel subpath base md st st1 :
  walk fuel subpath base md st = (Ret tt, st1) ->
  cache_read (pathCache st1) (fold_left extend subpath base) = None ->
  subpath <> [] \/ cache_read (pathCache st) base <> None ->
  forall fuel', exists c l,
    trace (walk (S fuel') subpath base md st1).2 = trace st1 ++ c :: l.
Proof.
  revert base md st. induction subpath as [|name rest IH];
    intros base md st Hwalk Hnone Hor fuel'.
  { simpl in Hwalk. injection Hwalk as <-. simpl in Hnone. by destruct Hor. }
  rewrite walk_unfold in Hwalk. simpl in Hwalk, Hnone.
  set (key := extend base name) in *.
  destruct (cache_read (pathCache st) key) as [m|] eqn:Hkey.
  - pose proof (walk_keeps fuel rest key (Some m) st key m Hkey) as Hkeep.
    rewrite Hwalk in Hkeep. simpl in Hkeep.
    rewrite walk_unfold. simpl. fold key. rewrite Hkeep.
    apply (IH key (Some m) st); [done|done|]. right. congruence.
  - destruct (fetch_segment fuel md name key st) as [[[]| |] st'] eqn:Hfetch;
      try done.
    destruct (cache_read (pathCache st') key) as [m|] eqn:Hkey'.
    + pose proof (walk_keeps fuel rest key (Some m) st' key m Hkey') as Hkeep.
      rewrite Hwalk in Hkeep. simpl in Hkeep.
      rewrite walk_unfold. simpl. fold key. rewrite Hkeep.
      apply (IH key (Some m) st'); [done|done|]. right. congruence.
    + injection Hwalk as <-.
      apply fetch_segment_returned in Hfetch as (decoded & m & Hdec & ->).
      rewrite walk_unfold. simpl. fold key. rewrite Hkey'.
      rewrite (fetch_segment_unfold _ _ _ _ _ _ Hdec).
      match goal with |- context [request (S fuel') ?q st'] =>
        destruct (request_calls fuel' q st') as (c & l & Hl);
        destruct (request (S fuel') q st') as [[r| |] st2] end;
        simpl in *; eauto.
      pose proof (stored_fields (date_now (world st')) key r st2) as (_ & St & _).
      destruct (cache_read (pathCache (stored _ _ _ _)) key) as [m'|].
      * match goal with |- context [walk ?n ?s ?b ?x ?y] =>
          destruct (walk_frame n s b x y) as [_ [l' Hl']] end.
        exists c, (l ++ l'). by rewrite Hl', St, Hl, <- app_assoc.
      * exists c, l. simpl. by rewrite St.
Qed.

(** C2 (as the code has it).  When a resolution returns an object, a second
    resolution of the same path returns the identical object and changes
    nothing of the client: no call is issued.  When a resolution returns
    not-found, a second resolution is not answered from the cache: it
    reaches the network again. *)
Theorem resolution_twice fuel path st outcome st1 :
  getMetadata fuel path st = (Ret outcome, st1) ->
  match outcome with
  | Some m => forall fuel', getMetadata fuel' path st1 = (Ret (Some m), st1)
  | None =>
      cache_read (pathCache st) "/" <> None ->
      forall fuel', exists c l,
        trace (getMetadata (S fuel') path st1).2 = trace st1 ++ c :: l
  end.
Proof.
  intros Hget. rewrite getMetadata_unfold in Hget. simpl in Hget.
  set (key := join ["/"; path; "/"]) in *.
  destruct outcome as [m|].
  - intros fuel'. rewrite getMetadata_unfold. simpl. fold key.
    destruct (cache_read (pathCache st) key) as [m'|] eqn:Hkey.
    + injection Hget as -> <-. by rewrite Hkey.
    + destruct (walk _ _ _ _ _) as [[[]| |] st'] eqn:Hwalk; try done.
      injection Hget as Hread <-. by rewrite Hread.
  - intros Hroot fuel'.
    destruct (cache_read (pathCache st) key) as [m'|] eqn:Hkey; [done|].
    assert (Hne : key <> "/") by (intros Heq; by rewrite Heq in Hkey).
    destruct (walk _ _ _ _ _) as [[[]| |] st'] eqn:Hwalk; try done.
    injection Hget as Hread <-.
    pose proof (walk_frame fuel (Js.split Js.slash (trim key Js.slash)) "/"
      (cache_read (pathCache st) "/") st) as [Hshort _].
    rewrite Hwalk in Hshort. simpl in Hshort.
    assert (Hrootsame : cache_read (pathCache st') "/" = cache_read (pathCache st) "/").
    { unfold cache_read. rewrite Hshort; [done|]. simpl. lia. }
    rewrite getMetadata_unfold. simpl. fold key. rewrite Hread, Hrootsame.
    destruct (walk_again _ _ _ _ _ _ Hwalk) with (fuel' := fuel') as (c & l & Hl).
    { unfold key. rewrite segments_rebuild; done. }
    { left. apply split_nonempty. }
    destruct (walk (S fuel') _ _ _ _) as [[[]| |] st2]; simpl in *; eauto.
Qed.

(** *** The root entry *)

Lemma getRawData_frame id range st :
  pathCache (getRawData id range st).2 = pathCache st.
Proof.
  unfold getRawData, bind, Date_now, get_options, fetch_MEDIA, settle, log, ret.
  pose proof (authorize_frame st) as [Hc _].
  destruct (authorize st) as [[[]| |] st0]; simpl in *; try done.
  destruct (fetch_media _ _ _ _) as [[status body|] w']; simpl; [|done].
  destruct (400 <=? status); [by destruct body|].
  simpl. by destruct (truthy_bool _).
Qed.

Lemma index_state fuel path st :
  (index fuel path st).2 = (getMetadata fuel (default "" path) st).2.
Proof.
  unfold index, bind.
  by destruct (getMetadata _ _ _) as [[[m|]| |] st1].
Qed.

Lemma call_list_frame fuel v st :
  pathCache (call_list fuel v st).2 = pathCache st.
Proof.
  unfold call_list. destruct (list_cap v) as [[]|]; [|done].
  unfold bind, listFiles.
  pose proof (listFiles_loop_frame fuel fuel (file_id (meta v))
    (list_params (file_id (meta v))) None [] st) as [Hc _].
  by destruct (listFiles_loop _ _ _ _ _ _ _) as [[items| |] st1].
Qed.

Lemma call_raw_frame v range st :
  pathCache (call_raw v range st).2 = pathCache st.
Proof.
  unfold call_raw. destruct (raw_cap v) as [[]|]; [|done].
  apply getRawData_frame.
Qed.

(** No operation writes the root entry. *)
Lemma run_op_root op st :
  pathCache (run_op op st) !! "/" = pathCache st !! "/".
Proof.
  assert (Hget : forall fuel path st',
    pathCache (getMetadata fuel path st').2 !! "/" = pathCache st' !! "/").
  { intros fuel path st'. by apply (proj1 (getMetadata_frame fuel path st')). }
  destruct op as [|fuel p|fuel path|fuel id|id range|fuel path|fuel path
                  |fuel path range|w]; simpl.
  - by rewrite (proj1 (authorize_frame st)).
  - by rewrite (proj1 (request_frame fuel p st)).
  - apply Hget.
  - unfold listFiles. by rewrite (proj1 (listFiles_loop_frame _ _ _ _ _ _ _)).
  - by rewrite getRawData_frame.
  - rewrite index_state. apply Hget.
  - pose proof (index_state fuel path st) as Hi.
    destruct (index fuel path st) as [[v| |] st1]; simpl in Hi; subst st1;
      rewrite ?call_list_frame; apply Hget.
  - pose proof (index_state fuel path st) as Hi.
    destruct (index fuel path st) as [[v| |] st1]; simpl in Hi; subst st1;
      rewrite ?call_raw_frame; apply Hget.
  - done.
Qed.

(** C8.  The constructor seeds the root path with the sentinel folder
    object; after any sequence of operations the root path still maps to
    that object; and resolving the empty path or ["/"] returns it and
    leaves the client as it was, so no call is issued. *)
Theorem root_is_seeded_and_kept (o : DriveOptions) (w : W) (ops : list Op) :
  let root := root_object (root_or_default o) in
  let st := run_ops ops (constructor o w) in
  pathCache (constructor o w) !! "/" = Some (Some root)
  /\ file_mimeType root = FOLDER_TYPE
  /\ pathCache st !! "/" = Some (Some root)
  /\ forall fuel,
       getMetadata fuel "" st = (Ret (Some root), st)
       /\ getMetadata fuel "/" st = (Ret (Some root), st).
Proof.
  simpl.
  assert (Hseed : pathCache (constructor o w) !! "/"
                  = Some (Some (root_object (root_or_default o)))) by done.
  assert (Hkept : pathCache (run_ops ops (constructor o w)) !! "/"
                  = Some (Some (root_object (root_or_default o)))).
  { revert Hseed. generalize (constructor o w).
    induction ops as [|op ops IH]; intros st Hst; [done|].
    simpl. apply IH. by rewrite run_op_root. }
  repeat split; try done.
  - rewrite getMetadata_unfold. simpl.
    change (join ["/"; ""; "/"]) with "/". unfold cache_read. by rewrite Hkept.
  - rewrite getMetadata_unfold. simpl.
    change (join ["/"; "/"; "/"]) with "/". unfold cache_read. by rewrite Hkept.
Qed.

(** *** [index] *)

(** C7.  [index] throws status 404, with the message [Path not found],
    when the resolution returns not-found; when the resolution returns an
    object it returns a view holding that object, with [isFolder] true
    exactly when the MIME type is the folder type, with the list closure
    alone on a folder and the raw closure alone otherwise, and the client,
    cache included, is as the resolution left it; a failure of the
    resolution, whatever its status, is passed on as it is. *)
Theorem index_classifies fuel (path : option string) st :
  match getMetadata fuel (default "" path) st with
  | (Ret None, st1) =>
      index fuel path st = (Throw (Failure 404 "Path not found"), st1)
  | (Ret (Some m), st1) =>
      exists v,
        index fuel path st = (Ret v, st1)
        /\ meta v = m
        /\ (isFolder v = true <-> file_mimeType m = FOLDER_TYPE)
        /\ list_cap v = (if isFolder v then Some MkListFn else None)
        /\ raw_cap v = (if isFolder v then None else Some MkRawFn)
        /\ cache_read (pathCache st1) (join ["/"; default "" path; "/"]) = Some m
  | (Throw e, st1) => index fuel path st = (Throw e, st1)
  | (Diverge, st1) => index fuel path st = (Diverge, st1)
  end.
Proof.
  unfold index, bind.
  destruct (getMetadata fuel (default "" path) st) as [[[m|]| |] st1] eqn:Hget;
    try done.
  eexists. split; [done|]. simpl. repeat split; try done.
  - unfold is_folder. by intros ?%String.eqb_eq.
  - unfold is_folder. by intros ?%String.eqb_eq.
  - rewrite getMetadata_unfold in Hget. simpl in Hget.
    destruct (cache_read (pathCache st) _) as [m'|] eqn:Hkey.
    + by injection Hget as <- <-.
    + destruct (walk _ _ _ _ _) as [[[]| |] st']; try done.
      by injection Hget as Hread <-.
Qed.

(** *** Listing and the path cache *)

(** A resolution that misses a segment reaches the network. *)
Lemma getMetadata_miss_calls fuel path st pre s post m decoded :
  let key := join ["/"; path; "/"] in
  let parent := fold_left extend pre "/" in
  Js.split Js.slash (trim key Js.slash) = pre ++ s :: post ->
  cached_along (pathCache st) "/" pre = true ->
  cache_read (pathCache st) parent = Some m ->
  cache_read (pathCache st) (extend parent s) = None ->
  cache_read (pathCache st) key = None ->
  Js.decodeURIComponent s = Some decoded ->
  exists c l, trace (getMetadata (S fuel) path st).2 = trace st ++ c :: l.
Proof.
  intros key parent Hsegs Hpre Hparent HP Hkey Hdec.
  rewrite (getMetadata_miss (S fuel) path st pre s post m decoded) by done.
  subst key parent.
  match goal with |- context [request (S fuel) ?q st] =>
    destruct (request_calls fuel q st) as (c & l & Hl);
    destruct (request (S fuel) q st) as [[r| |] st1] end; simpl in *; eauto.
  pose proof (stored_fields (date_now (world st))
    (extend (fold_left extend pre "/") s) r st1) as (_ & St & _).
  destruct (head (files r)) as [obj|]; simpl.
  - match goal with |- context [walk ?n ?x ?b ?md ?y] =>
      pose proof (walk_frame n x b md y) as [_ [l' Hl']];
      destruct (walk n x b md y) as [[[]| |] st3] end; simpl in *;
      exists c, (l ++ l'); by rewrite Hl', St, Hl, <- app_assoc.
  - exists c, l. by rewrite St.
Qed.

(** C10.  [listFiles], and the list closure of a view, leave the path cache
    exactly as it was.  So a path whose segment [s] was not resolved before
    the listing is not resolved after it either: its resolution issues the
    metadata query for [s] and reaches the network. *)
Theorem listing_leaves_pathCache fuel id st fuel' path pre s post m decoded :
  let st' := (listFiles fuel id st).2 in
  let key := join ["/"; path; "/"] in
  let parent := fold_left extend pre "/" in
  Js.split Js.slash (trim key Js.slash) = pre ++ s :: post ->
  cached_along (pathCache st) "/" pre = true ->
  cache_read (pathCache st) parent = Some m ->
  cache_read (pathCache st) (extend parent s) = None ->
  cache_read (pathCache st) key = None ->
  Js.decodeURIComponent s = Some decoded ->
  pathCache st' = pathCache st
  /\ (forall v, pathCache (call_list fuel v st).2 = pathCache st)
  /\ getMetadata fuel' path st'
     = match request fuel' (metadata_query (file_id m) (Js.escape_quotes decoded)) st' with
       | (Ret r, st1) =>
           let st2 := stored (date_now (world st')) (extend parent s) r st1 in
           match head (files r) with
           | None => (Ret None, st2)
           | Some obj =>
               match walk fuel' post (extend parent s) (Some obj) st2 with
               | (Ret _, st3) => (Ret (cache_read (pathCache st3) key), st3)
               | (Throw e, st3) => (Throw e, st3)
               | (Diverge, st3) => (Diverge, st3)
               end
           end
       | (Throw e, st1) => (Throw e, st1)
       | (Diverge, st1) => (Diverge, st1)
       end
  /\ exists c l, trace (getMetadata (S fuel') path st').2 = trace st' ++ c :: l.
Proof.
  intros st' key parent Hsegs Hpre Hparent HP Hkey Hdec.
  assert (Hc : pathCache st' = pathCache st).
  { unfold st', listFiles. apply listFiles_loop_frame. }
  split; [done|]. split; [intros v; apply call_list_frame|].
  split.
  - apply (getMetadata_miss fuel' path st' pre s post m decoded);
      by rewrite ?Hc.
  - apply (getMetadata_miss_calls fuel' path st' pre s post m decoded);
      by rewrite ?Hc.
Qed.

(** *** Listing *)

Lemma page_params_none id :
  stringify (page_params id None)
  = [("pageSize", JNum 1000);
     ("q", JStr ("'" +:+ id +:+ "' in parents and trashed = false AND name != '.password'"));
     ("fields", JStr ("nextPageToken, files(" +:+ FILE_ATTRS +:+ ")"));
     ("orderBy", JStr "folder, name")].
Proof. reflexivity. Qed.

Lemma page_params_some id tok :
  truthy_str (Some tok) = true ->
  stringify (page_params id (Some tok))
  = ("pageToken", JStr tok) :: stringify (page_params id None).
Proof.
  intros Ht. rewrite page_params_none.
  unfold page_params, with_token. rewrite Ht.
  change (assign "pageToken" (JStr (default "" (Some tok))) (list_params id))
    with (("pageToken", JStr tok) :: tail (list_params id)).
  unfold stringify. simpl. unfold truthy_str in Ht. by rewrite Ht.
Qed.

(** Once a token has been written into the parameters, the next token
    takes its place. *)
Lemma with_token_page id tok tok' :
  truthy_str tok' = true ->
  with_token tok' (page_params id tok) = page_params id tok'.
Proof.
  intros Ht. unfold page_params, with_token. rewrite Ht.
  by destruct (truthy_str tok).
Qed.

Lemma request_answered fuel p st status r st1 :
  attempt p st = (Ret (status, FilesOk r), st1) ->
  request (S fuel) p st = (Ret r, st1).
Proof. intros Ha. by rewrite request_unfold, Ha. Qed.

Lemma listFiles_loop_serves fuel n id p tok acc st pages st' :
  serves id tok st pages st' ->
  with_token tok p = page_params id tok ->
  (length pages <= n)%nat ->
  listFiles_loop (S fuel) n id p tok acc st
  = (Ret (acc ++ concat (files <$> pages)), st')
  /\ files_queries (trace st')
     = files_queries (trace st) ++ queries_for id tok pages.
Proof.
  intros Hs. revert n p acc.
  induction Hs as [tok st status r st1 Ha Hstop
                  |tok st status r st1 rs st2 Ha Hmore Hs IH];
    intros n p acc Hp Hn.
  - destruct n as [|n]; [simpl in Hn; lia|].
    rewrite listFiles_loop_unfold, Hp, (request_answered _ _ _ _ _ _ Ha).
    simpl. rewrite Hstop, app_nil_r. split; [done|].
    rewrite (proj1 (proj2 (listed_fields _ _ _))).
    by apply attempt_trace in Ha as [_ ->].
  - destruct n as [|n]; [simpl in Hn; lia|].
    rewrite listFiles_loop_unfold, Hp, (request_answered _ _ _ _ _ _ Ha).
    simpl. rewrite Hmore.
    destruct (IH n (page_params id tok) (acc ++ files r)) as [IHr IHt].
    { by apply with_token_page. }
    { simpl in Hn. lia. }
    rewrite IHr, <- app_assoc. split; [done|].
    rewrite IHt, (proj1 (proj2 (listed_fields _ _ _))).
    apply attempt_trace in Ha as [_ ->]. by rewrite <- app_assoc.
Qed.

Lemma queries_for_length id tok pages :
  length (queries_for id tok pages) = length pages.
Proof.
  revert tok. induction pages as [|r rs IH]; intros tok; [done|].
  simpl. by rewrite IH.
Qed.

Lemma chunks_fuel_concat {A} fuel size (l : list A) :
  concat (chunks_fuel fuel size l) = l.
Proof.
  revert l. induction fuel as [|fuel IH]; intros l; simpl.
  { by rewrite app_nil_r. }
  destruct (length l <=? size)%nat; simpl.
  - by rewrite app_nil_r.
  - by rewrite IH, take_drop.
Qed.

Lemma ceil_div_step (n size : nat) :
  (0 < size)%nat -> (size < n)%nat ->
  ceil_div n size = S (ceil_div (n - size) size).
Proof.
  intros Hp Hn. unfold ceil_div.
  replace (n + size - 1)%nat with ((n - size + size - 1) + 1 * size)%nat by lia.
  rewrite Nat.div_add by lia. lia.
Qed.

Lemma ceil_div_small (n size : nat) :
  (0 < n)%nat -> (n <= size)%nat -> ceil_div n size = 1%nat.
Proof.
  intros Hn Hp. unfold ceil_div.
  replace (n + size - 1)%nat with ((n - 1) + 1 * size)%nat by lia.
  rewrite Nat.div_add by lia. rewrite Nat.div_small by lia. done.
Qed.

Lemma chunks_fuel_length {A} fuel size (l : list A) :
  (0 < size)%nat -> (length l <= fuel)%nat -> (0 < length l)%nat ->
  length (chunks_fuel fuel size l) = ceil_div (length l) size.
Proof.
  intros Hsize. revert l. induction fuel as [|fuel IH]; intros l Hfuel Hl.
  { lia. }
  simpl. destruct (Nat.leb_spec (length l) size) as [Hle|Hgt].
  - simpl. by rewrite ceil_div_small.
  - simpl. rewrite IH.
    + rewrite length_drop. by rewrite <- ceil_div_step.
    + rewrite length_drop. lia.
    + rewrite length_drop. lia.
Qed.

(** C5 (as the code has it).  When the listing queries of a folder are
    answered with [pages], each page but the last naming a next page, then
    [listFiles] returns the files of all the pages in the order served; it
    sends one query per page and none after the page without a token: the
    first without a page token, each later one with the token of the page
    before, all with page size 1000 and the filter that excludes trashed
    files and the name [.password].  If the pages are the [N] children of
    the folder cut into pages of [P], the result is the [N] children and the
    number of queries is [ceil (N / P)] for [N > 0] and one for [N = 0]. *)
Theorem listFiles_drains_pages fuel id st pages st' :
  serves id None st pages st' ->
  (length pages <= fuel)%nat ->
  listFiles fuel id st = (Ret (concat (files <$> pages)), st')
  /\ files_queries (trace st')
     = files_queries (trace st) ++ queries_for id None pages
  /\ length (queries_for id None pages) = length pages
  /\ stringify (page_params id None)
     = [("pageSize", JNum 1000);
        ("q", JStr ("'" +:+ id
                    +:+ "' in parents and trashed = false AND name != '.password'"));
        ("fields", JStr ("nextPageToken, files(" +:+ FILE_ATTRS +:+ ")"));
        ("orderBy", JStr "folder, name")]
  /\ (forall tok, truthy_str (Some tok) = true ->
        stringify (page_params id (Some tok))
        = ("pageToken", JStr tok) :: stringify (page_params id None))
  /\ (forall (children : list RemoteObject) (P : nat),
        (0 < P)%nat -> files <$> pages = chunks P children ->
        concat (files <$> pages) = children
        /\ length pages
           = if decide (length children = 0%nat) then 1%nat
             else ceil_div (length children) P).
Proof.
  intros Hs Hfuel.
  assert (Hpos : (0 < length pages)%nat) by (destruct Hs; simpl; lia).
  destruct fuel as [|fuel]; [lia|].
  destruct (listFiles_loop_serves fuel (S fuel) id (list_params id) None []
              st pages st' Hs eq_refl Hfuel) as [Hr Ht].
  split; [exact Hr|]. split; [exact Ht|].
  split; [apply queries_for_length|].
  split; [apply page_params_none|].
  split; [apply page_params_some|].
  intros children P HP Hchunks. split.
  - rewrite Hchunks. apply chunks_fuel_concat.
  - rewrite <- (length_fmap files), Hchunks. unfold chunks.
    destruct (decide (length children = 0%nat)) as [Hz|Hnz].
    + rewrite Hz. done.
    + apply chunks_fuel_length; lia.
Qed.

(** *** Keys and filters *)

Lemma escape_first s :
  first_char (Js.escape_quotes s) <> Some Js.quote.
Proof.
  destruct s as [|c s]; [done|]. simpl.
  destruct (Ascii.eqb c Js.quote) eqn:Hc; [done|].
  simpl. intros [= ->]. by rewrite Ascii.eqb_refl in Hc.
Qed.

(** In an escaped name every quote comes right after a backslash. *)
Lemma escape_quotes_escaped s :
  quotes_escaped (Js.escape_quotes s) = true.
Proof.
  induction s as [|c s IH]; [done|].
  change (Js.escape_quotes (String c s)) with
    (if Ascii.eqb c Js.quote
     then String Js.backslash (String Js.quote (Js.escape_quotes s))
     else String c (Js.escape_quotes s)).
  destruct (Ascii.eqb c Js.quote) eqn:Hq; [exact IH|].
  change (quotes_escaped (String c (Js.escape_quotes s))) with
    (if Ascii.eqb c Js.quote then false
     else if Ascii.eqb c Js.backslash then
       match Js.escape_quotes s with
       | String b s'' =>
           if Ascii.eqb b Js.quote then quotes_escaped s''
           else quotes_escaped (Js.escape_quotes s)
       | EmptyString => true
       end
     else quotes_escaped (Js.escape_quotes s)).
  rewrite Hq. destruct (Ascii.eqb c Js.backslash); [|exact IH].
  pose proof (escape_first s) as Hfirst.
  destruct (Js.escape_quotes s) as [|b s'']; [done|].
  destruct (Ascii.eqb b Js.quote) eqn:Hb; [|exact IH].
  apply Ascii.eqb_eq in Hb. subst b. done.
Qed.

(** The keys a walk writes are cumulative sub-paths of its segments, as
    they are written in the path. *)
Lemma walk_writes fuel subpath base md st k :
  pathCache (walk fuel subpath base md st).2 !! k <> pathCache st !! k ->
  exists pre post,
    subpath = pre ++ post /\ pre <> [] /\ k = fold_left extend pre base.
Proof.
  revert base md st. induction subpath as [|name rest IH]; intros base md st.
  { done. }
  rewrite walk_unfold. simpl.
  assert (Hrest : forall md' st',
    pathCache (walk fuel rest (extend base name) md' st').2 !! k
      <> pathCache st' !! k ->
    exists pre post, name :: rest = pre ++ post /\ pre <> []
      /\ k = fold_left extend pre base).
  { intros md' st' Hne. destruct (IH _ _ _ Hne) as (pre & post & -> & _ & ->).
    by exists (name :: pre), post. }
  destruct (cache_read (pathCache st) (extend base name)) as [m|]; [by apply Hrest|].
  destruct (decide (k = extend base name)) as [->|Hk].
  { intros _. by exists [name], rest. }
  pose proof (proj1 (fetch_segment_frame fuel md name (extend base name) st) k Hk)
    as Hf.
  destruct (fetch_segment _ _ _ _ _) as [[[]| |] st1]; simpl in *; try done.
  destruct (cache_read (pathCache st1) (extend base name)) as [m|]; [|done].
  rewrite <- Hf. apply Hrest.
Qed.

(** C6 (as the code has it).  The key under which a path is cached is
    [join("/", path, "/")]: it starts with one slash, ends with one slash,
    has no two slashes in a row, and is made of the segments as they are
    written, percent-escapes included; ["a//b/"], ["/a/b"] and ["a/b"] have
    the key ["/a/b/"], and paths with the same key resolve alike.  The
    resolution writes the cache under cumulative sub-paths of those written
    segments only.  Percent-escapes are decoded in the name that goes into
    the filter of the query, and every quote of the decoded name is escaped
    there; a name that does not decode throws. *)
Theorem path_key_and_filter fuel path st :
  let key := join ["/"; path; "/"] in
  let segs := Js.split Js.slash (trim key Js.slash) in
  (first_char key = Some Js.slash
   /\ last_char key = Some Js.slash
   /\ no_double_slash key = true)
  /\ (key = "/" \/ fold_left extend segs "/" = key)
  /\ (join ["/"; "a//b/"; "/"] = "/a/b/"
      /\ join ["/"; "/a/b"; "/"] = "/a/b/"
      /\ join ["/"; "a/b"; "/"] = "/a/b/")
  /\ (forall path', join ["/"; path'; "/"] = key ->
        getMetadata fuel path' st = getMetadata fuel path st)
  /\ (forall k,
        pathCache (getMetadata fuel path st).2 !! k <> pathCache st !! k ->
        exists pre post,
          segs = pre ++ post /\ pre <> [] /\ k = fold_left extend pre "/")
  /\ (forall m name k,
        match Js.decodeURIComponent name with
        | Some decoded =>
            quotes_escaped (Js.escape_quotes decoded) = true
            /\ fetch_segment fuel (Some m) name k st
               = match request fuel
                         (metadata_query (file_id m) (Js.escape_quotes decoded)) st with
                 | (Ret r, st1) => (Ret tt, stored (date_now (world st)) k r st1)
                 | (Throw e, st1) => (Throw e, st1)
                 | (Diverge, st1) => (Diverge, st1)
                 end
        | None => fetch_segment fuel (Some m) name k st = (Throw URIError, st)
        end).
Proof.
  intros key segs.
  split; [apply join_normal|].
  split.
  { destruct (decide (key = "/")) as [Heq|Hne]; [by left|right].
    by apply segments_rebuild. }
  split; [done|].
  split.
  { intros path' Hkey. unfold getMetadata. fold key. by rewrite Hkey. }
  split.
  { intros k. rewrite getMetadata_unfold. simpl. fold key segs.
    destruct (cache_read (pathCache st) key) as [m|]; [done|].
    pose proof (walk_writes fuel segs "/" (cache_read (pathCache st) "/") st k)
      as Hw.
    by destruct (walk _ _ _ _ _) as [[[]| |] st1]. }
  intros m name k.
  destruct (Js.decodeURIComponent name) as [decoded|] eqn:Hdec.
  - split; [apply escape_quotes_escaped|]. by apply fetch_segment_unfold.
  - unfold fetch_segment, bind, Date_now, throw. by rewrite Hdec.
Qed.

(** *** Who touches the credentials *)















(** *** A failed refresh *)


End Facts.

(** ** Runs against the scripted world *)

Section Runs.

Import Scripted.

Example decode_space : Js.decodeURIComponent "a%20b" = Some "a b".
Proof. reflexivity. Qed.

Example decode_slash : Js.decodeURIComponent "a%2fb" = Some "a/b".
Proof. reflexivity. Qed.

Example decode_two_octets :
  Js.decodeURIComponent "%C3%A9" = Some (Js.string_of_octets [195; 169]%N).
Proof. reflexivity. Qed.

Example decode_lone_percent : Js.decodeURIComponent "100%" = None.
Proof. reflexivity. Qed.

Example decode_overlong : Js.decodeURIComponent "%C0%80" = None.
Proof. reflexivity. Qed.

Example decode_surrogate : Js.decodeURIComponent "%ED%A0%80" = None.
Proof. reflexivity. Qed.

Example decode_truncated : Js.decodeURIComponent "%E2%82" = None.
Proof. reflexivity. Qed.

Example split_root : Js.split Js.slash (trim "/" Js.slash) = [""].
Proof. reflexivity. Qed.

Example escape_example :
  Js.escape_quotes "it's" = String "i" (String "t" (String Js.backslash "'s")).
Proof. reflexivity. Qed.

(** C1, the claim as written fails: the folder [a] is not found at the first
    resolution and [undefined] is stored under its sub-path; the second
    resolution asks the server again and, the folder having appeared,
    returns it. *)
Lemma not_found_marker_is_not_consulted :
  let first := getMetadata 2 "a" appears_later in
  let second := getMetadata 2 "a" first.2 in
  first.1 = Ret None
  /\ pathCache first.2 !! "/a/" = Some None
  /\ second.1 = Ret (Some file_a)
  /\ files_queries (trace second.2)
     = files_queries (trace first.2) ++ [stringify (metadata_query "root" "a")].
Proof. vm_compute. repeat split. Qed.

Lemma not_found_is_stored_and_asked_again_witness :
  exists st2, getMetadata 2 "a/b" never_there = (Ret None, st2).
Proof.
  eexists.
  refine (proj1 (not_found_is_stored_and_asked_again 2 "a/b" never_there
    [] "a" ["b"] (root_object "root") "a"
    {| files := []; nextPageToken := None |}
    (request 2 (metadata_query "root" "a") never_there).2 _ _ _ _ _ _ _ _));
    vm_compute; reflexivity.
Defined.

(** C2, the claim as written fails: a path that resolved to not-found is
    asked for again at the second resolution, whether the answer is the
    same or not. *)
Lemma second_resolution_of_missing_path_calls_again :
  let first := getMetadata 2 "a/b" never_there in
  let second := getMetadata 2 "a/b" first.2 in
  let first' := getMetadata 2 "a" appears_later in
  let second' := getMetadata 2 "a" first'.2 in
  first.1 = Ret None /\ second.1 = Ret None
  /\ length (trace first.2) = 1%nat /\ length (trace second.2) = 2%nat
  /\ first'.1 = Ret None /\ second'.1 = Ret (Some file_a).
Proof. vm_compute. repeat split. Qed.

Lemma resolution_twice_witness :
  getMetadata 5 "a" (getMetadata 2 "a" listable).2
  = (Ret (Some file_a), (getMetadata 2 "a" listable).2).
Proof.
  refine (resolution_twice 2 "a" listable (Some file_a)
            (getMetadata 2 "a" listable).2 _ 5%nat).
  vm_compute; reflexivity.
Defined.

Lemma request_rate_limit_retry_witness :
  exists st2,
    request 2 (metadata_query "root" "a") throttled_once
    = (Ret {| files := [file_a]; nextPageToken := None |}, st2).
Proof.
  eexists.
  refine (proj2 (request_rate_limit_retry (metadata_query "root" "a") 1
    throttled_once (attempt (metadata_query "root" "a") throttled_once).2 _
    200 (FilesOk {| files := [file_a]; nextPageToken := None |}) 2 _ _ _)).
  - eapply throttled_S; [vm_compute; reflexivity|reflexivity|apply throttled_O].
  - vm_compute; reflexivity.
  - lia.
Defined.

Lemma authorize_token_lifecycle_witness :
  authorize (authorized []) = (Ret tt, authorized [])
  /\ token_calls (trace (authorize unauthorized).2) = 1%nat
  /\ expires_on (options (authorize unauthorized).2) = Some (Num 3300006)
  /\ token_calls (trace (authorize (set_world (at_time 10) (authorize unauthorized).2)).2) = 1%nat
  /\ token_calls (trace (authorize (set_world (at_time 4000000) (authorize unauthorized).2)).2) = 2%nat.
Proof.
  destruct (authorize_token_lifecycle (authorized [])) as [Hfresh _].
  destruct (authorize_token_lifecycle unauthorized) as [_ Hstale].
  assert (Hunset : forall e, expires_on (options unauthorized) = Some (Num e) ->
            e = 0 \/ e <= date_now (world unauthorized)).
  { intros e He. vm_compute in He. discriminate. }
  destruct (Hstale Hunset) as (Htrace & Hgranted & Hlater).
  destruct (Hgranted 200 "t1" 3600 eq_refl) as (_ & _ & Hexp).
  destruct (Hlater (authorize unauthorized).2 3300006 (at_time 10) (at_time 4000000))
    as (Hsecond & Hone & Htwo).
  { vm_compute; reflexivity. }
  { vm_compute; reflexivity. }
  { change (0 <= 10 < 3300006). lia. }
  { change (3300006 <= 4000000). lia. }
  split; [apply (Hfresh 1000000); [reflexivity|lia|reflexivity]|].
  split; [rewrite Htrace; reflexivity|].
  split; [exact Hexp|].
  split; [rewrite Hsecond; exact Hone|exact Htwo].
Defined.

(** C5, the claim as written fails: an empty folder has [N = 0] children,
    and [ceil (0 / P)] is [0], but the listing fetches one page. *)
Lemma empty_folder_is_fetched_once :
  let run := listFiles 2 "dir" empty_folder in
  run.1 = Ret []
  /\ length (files_queries (trace run.2)) = 1%nat
  /\ ceil_div (length (@nil RemoteObject)) 1000 = 0%nat.
Proof. vm_compute. repeat split. Qed.

Lemma listFiles_drains_pages_witness :
  (listFiles 2 "dir" three_children).1 = Ret [f1; f2; f3].
Proof.
  assert (Hs : serves "dir" None three_children
                 [{| files := [f1; f2]; nextPageToken := Some "next" |};
                  {| files := [f3]; nextPageToken := None |}]
                 (listFiles 2 "dir" three_children).2).
  { eapply (serves_next "dir" None three_children 200 _
              (attempt (page_params "dir" None) three_children).2);
      [vm_compute; reflexivity|reflexivity|].
    refine (serves_last "dir" (Some "next") _ 200 _
              (attempt (page_params "dir" (Some "next"))
                 (listed "dir" (date_now (world three_children))
                    (attempt (page_params "dir" None) three_children).2)).2 _ _);
      [vm_compute; reflexivity|reflexivity]. }
  destruct (listFiles_drains_pages 2 "dir" three_children _ _ Hs) as [Hr _].
  { simpl. lia. }
  rewrite Hr. reflexivity.
Defined.

(** C6, the claim as written fails: the path ["a%20b"] is cached under
    ["/a%20b/"], not under the decoded ["/a b/"]; the path ["a b"] names the
    same file and is resolved with a query of its own. *)
Lemma cache_key_keeps_percent_escapes :
  let run := getMetadata 1 "a%20b" with_space in
  let again := getMetadata 1 "a b" run.2 in
  decoded_key "a%20b" = Some "/a b/"
  /\ join ["/"; "a%20b"; "/"] = "/a%20b/"
  /\ run.1 = Ret (Some file_ab)
  /\ pathCache run.2 !! "/a%20b/" = Some (Some file_ab)
  /\ pathCache run.2 !! "/a b/" = None
  /\ again.1 = Ret (Some file_ab)
  /\ length (trace run.2) = 1%nat /\ length (trace again.2) = 2%nat.
Proof. vm_compute. repeat split. Qed.

(** C7, the claim as written fails: the files endpoint answers the query for
    [a] with an error of status 404; the resolution throws it and does not
    reach the not-found outcome (nothing is stored for the path), yet
    [index] fails with status 404. *)
Lemma server_404_is_passed_on :
  let resolution := getMetadata 1 "a" server_says_404 in
  resolution.1 = Throw (Failure 404 "File not found: .")
  /\ resolution.1 <> Ret None
  /\ pathCache resolution.2 !! "/a/" = None
  /\ (index 1 (Some "a") server_says_404).1
     = Throw (Failure 404 "File not found: .").
Proof. vm_compute. repeat split. discriminate. Qed.



Lemma listing_leaves_pathCache_witness :
  pathCache (listFiles 2 "root" listable).2 = pathCache listable
  /\ exists c l,
       trace (getMetadata 3 "a" (listFiles 2 "root" listable).2).2
       = trace (listFiles 2 "root" listable).2 ++ c :: l.
Proof.
  destruct (listing_leaves_pathCache 2 "root" listable 2 "a" [] "a" []
              (root_object "root") "a") as (Hc & _ & _ & Ht);
    try (vm_compute; reflexivity).
  split; [exact Hc|exact Ht].
Defined.

End Runs.

(** ** More properties of the code *)

Section Encoding.

Import Uri.

Ltac by_cases_on c := destruct c as [[] [] [] [] [] [] [] []]; vm_compute; try done.

Lemma read_escape_octet c rest :
  Js.read_escape (escape_octet c +:+ rest) = Some (N_of_ascii c, rest).
Proof. destruct c as [[] [] [] [] [] [] [] []]; reflexivity. Qed.

Lemma unreserved_not_percent c :
  unreserved c = true -> Ascii.eqb c Js.percent = false.
Proof. by_cases_on c. Qed.

Lemma unreserved_ascii c :
  unreserved c = true -> (N_of_ascii c <? 128)%N = true.
Proof. by_cases_on c. Qed.

Lemma hex_digits_unreserved c :
  unreserved (hex_digit (N_of_ascii c / 16)) = true
  /\ unreserved (hex_digit (N_of_ascii c mod 16)) = true.
Proof. by_cases_on c. Qed.

Lemma decode_fuel_percent fuel s :
  Js.decode_fuel (S fuel) (String Js.percent s)
  = match Js.read_escape (String Js.percent s) with
    | None => None
    | Some (b, rest) =>
        if (b <? 128)%N then
          String (ascii_of_N b) <$> Js.decode_fuel fuel rest
        else
          match Js.utf8_len b with
          | None => None
          | Some n =>
              match Js.read_escapes (pred n) rest with
              | None => None
              | Some (bs, rest') =>
                  if Js.valid_utf8 (b :: bs) then
                    String.append (Js.string_of_octets (b :: bs))
                      <$> Js.decode_fuel fuel rest'
                  else None
              end
          end
    end.
Proof. reflexivity. Qed.

Lemma decode_fuel_plain fuel c s :
  Ascii.eqb c Js.percent = false ->
  Js.decode_fuel (S fuel) (String c s) = String c <$> Js.decode_fuel fuel s.
Proof. intros Hc. simpl. by rewrite Hc. Qed.

Lemma encode_cons c s :
  encodeURIComponent (String c s)
  = if unreserved c then String c (encodeURIComponent s)
    else escape_octet c +:+ encodeURIComponent s.
Proof. reflexivity. Qed.

Lemma escape_octet_append c rest :
  escape_octet c +:+ rest
  = String Js.percent
      (String (hex_digit (N_of_ascii c / 16))
         (String (hex_digit (N_of_ascii c mod 16)) rest)).
Proof. reflexivity. Qed.

(** The trailing octets of a sequence are read back from their escapes. *)
Lemma read_escapes_encoded k s bs rest :
  take_octets k s = Some (bs, rest) ->
  forallb (fun x => (128 <=? x)%N) bs = true ->
  Js.read_escapes k (encodeURIComponent s) = Some (bs, encodeURIComponent rest)
  /\ s = Js.string_of_octets bs +:+ rest.
Proof.
  revert s bs rest. induction k as [|k IH]; intros s bs rest Ht Hb.
  { simpl in Ht. injection Ht as <- <-. done. }
  destruct s as [|c s]; [done|]. simpl in Ht.
  destruct (take_octets k s) as [[bs' rest']|] eqn:Hk; [|done].
  injection Ht as <- <-. simpl in Hb. apply andb_true_iff in Hb as [Hc Hb].
  destruct (IH s bs' rest' Hk Hb) as [IHr IHs].
  assert (Hun : unreserved c = false).
  { destruct (unreserved c) eqn:Hu; [|done].
    apply unreserved_ascii in Hu. apply N.ltb_lt in Hu. apply N.leb_le in Hc. lia. }
  rewrite encode_cons, Hun. split.
  - change (Js.read_escapes (S k) ?x) with
      (match Js.read_escape x with
       | Some (b, r) =>
           match Js.read_escapes k r with
           | Some (l, r') => Some (b :: l, r')
           | None => None
           end
       | None => None
       end).
    by rewrite read_escape_octet, IHr.
  - simpl. rewrite ascii_N_embedding. by rewrite IHs at 1.
Qed.

Lemma well_formed_fuel_cons n c s :
  well_formed_fuel (S n) (String c s)
  = if (N_of_ascii c <? 128)%N then well_formed_fuel n s
    else
      match Js.utf8_len (N_of_ascii c) with
      | None => false
      | Some k =>
          match take_octets (pred k) s with
          | None => false
          | Some (bs, rest) =>
              Js.valid_utf8 (N_of_ascii c :: bs)
              && forallb (fun x => (128 <=? x)%N) bs
              && well_formed_fuel n rest
          end
      end.
Proof. reflexivity. Qed.

Lemma decode_encode_fuel n s :
  well_formed_fuel n s = true ->
  forall fuel, (n <= fuel)%nat ->
  Js.decode_fuel fuel (encodeURIComponent s) = Some s.
Proof.
  revert s. induction n as [|n IH]; intros s Hwf fuel Hfuel.
  { destruct s; [|done]. by destruct fuel. }
  destruct s as [|c s]; [by destruct fuel|].
  destruct fuel as [|fuel]; [lia|].
  rewrite well_formed_fuel_cons in Hwf. rewrite encode_cons.
  destruct (N_of_ascii c <? 128)%N eqn:Hascii.
  - destruct (unreserved c) eqn:Hun.
    + rewrite decode_fuel_plain by by apply unreserved_not_percent.
      rewrite (IH s Hwf fuel) by lia. done.
    + rewrite escape_octet_append, decode_fuel_percent, <- escape_octet_append.
      rewrite read_escape_octet, Hascii, (IH s Hwf fuel) by lia.
      simpl. by rewrite ascii_N_embedding.
  - assert (Hun : unreserved c = false).
    { destruct (unreserved c) eqn:Hu; [|done].
      apply unreserved_ascii in Hu. congruence. }
    rewrite Hun.
    destruct (Js.utf8_len (N_of_ascii c)) as [k|] eqn:Hlen; [|done].
    destruct (take_octets (pred k) s) as [[bs rest]|] eqn:Htake; [|done].
    apply andb_true_iff in Hwf as [Hwf Hrest].
    apply andb_true_iff in Hwf as [Hvalid Hhigh].
    destruct (read_escapes_encoded _ _ _ _ Htake Hhigh) as [Hread Hs].
    rewrite escape_octet_append, decode_fuel_percent, <- escape_octet_append.
    rewrite read_escape_octet, Hascii, Hlen, Hread, Hvalid.
    rewrite (IH rest Hrest fuel) by lia. simpl.
    rewrite ascii_N_embedding. by rewrite Hs.
Qed.

Lemma encode_length s :
  (String.length s <= String.length (encodeURIComponent s))%nat.
Proof.
  induction s as [|c s IH]; [done|]. rewrite encode_cons.
  destruct (unreserved c); rewrite ?escape_octet_append; simpl; lia.
Qed.

(** Decoding undoes encoding, on well-formed text. *)
Lemma decode_encoded s :
  well_formed s = true ->
  Js.decodeURIComponent (encodeURIComponent s) = Some s.
Proof.
  intros Hwf. unfold Js.decodeURIComponent.
  apply (decode_encode_fuel _ _ Hwf). apply encode_length.
Qed.

(** *** The query string *)

Lemma occurs_append x (a b : string) :
  occurs x (a +:+ b) = occurs x a || occurs x b.
Proof.
  induction a as [|c a IH]; [done|].
  rewrite ?append_cons. simpl. by rewrite IH, orb_assoc.
Qed.

(** An encoded text holds unreserved characters, percent signs and
    hexadecimal digits, nothing else. *)
Lemma encode_occurs x s :
  unreserved x = false -> Ascii.eqb x Js.percent = false ->
  occurs x (encodeURIComponent s) = false.
Proof.
  intros Hx Hp. induction s as [|c s IH]; [done|].
  assert (Hne : forall c', unreserved c' = true -> Ascii.eqb c' x = false).
  { intros c' Hc'. destruct (Ascii.eqb c' x) eqn:He; [|done].
    apply Ascii.eqb_eq in He. congruence. }
  rewrite encode_cons. destruct (unreserved c) eqn:Hc.
  - simpl. by rewrite (Hne c Hc), IH.
  - rewrite escape_octet_append.
    destruct (hex_digits_unreserved c) as [Hh Hl].
    change (occurs x (String ?a (String ?b (String ?d ?r))))
      with (Ascii.eqb a x || (Ascii.eqb b x || (Ascii.eqb d x || occurs x r))).
    rewrite (Hne _ Hh), (Hne _ Hl), IH.
    rewrite Ascii.eqb_sym, Hp. done.
Qed.

Lemma split_absent sep a :
  occurs sep a = false -> Js.split sep a = [a].
Proof.
  induction a as [|c a IH]; [done|]. simpl.
  intros [Hc Ha]%orb_false_iff. by rewrite Hc, IH.
Qed.

Lemma split_at sep a rest :
  occurs sep a = false ->
  Js.split sep (a +:+ String sep rest) = a :: Js.split sep rest.
Proof.
  induction a as [|c a IH].
  - intros _. change (EmptyString +:+ String sep rest) with (String sep rest).
    simpl. by rewrite Ascii.eqb_refl.
  - intros Hocc. simpl in Hocc. apply orb_false_iff in Hocc as [Hc Ha].
    rewrite ?append_cons. simpl. by rewrite Hc, IH.
Qed.

Lemma query_piece_clean kv : occurs "&"%char (query_piece kv) = false.
Proof.
  unfold query_piece. rewrite !occurs_append, !encode_occurs by done. done.
Qed.

Lemma split_pieces (l : list string) :
  l <> [] -> Forall (fun x => occurs "&"%char x = false) l ->
  Js.split "&"%char (String.concat "&" l) = l.
Proof.
  induction l as [|x l IH]; [done|]. intros _ Hall.
  apply Forall_cons in Hall as [Hx Hall].
  destruct l as [|y l].
  - simpl. by apply split_absent.
  - change (String.concat "&" (x :: y :: l))
      with (x +:+ String "&"%char (String.concat "&" (y :: l))).
    rewrite split_at by done. by rewrite IH.
Qed.

Lemma parse_piece_piece kv :
  well_formed kv.1 = true -> well_formed (to_string kv.2) = true ->
  parse_piece (query_piece kv) = Some (kv.1, to_string kv.2).
Proof.
  intros Hk Hv. unfold parse_piece, query_piece.
  change (encodeURIComponent kv.1 +:+ "=" +:+ encodeURIComponent (to_string kv.2))
    with (encodeURIComponent kv.1
          +:+ String "="%char (encodeURIComponent (to_string kv.2))).
  rewrite split_at by by apply encode_occurs.
  rewrite split_absent by by apply encode_occurs.
  by rewrite !decode_encoded.
Qed.

Lemma parse_query_text (p : Params) :
  stringify p <> [] ->
  forallb (fun kv => well_formed kv.1 && well_formed (to_string kv.2))
    (stringify p) = true ->
  parse_query (query_text p)
  = Some (map (fun kv => (kv.1, to_string kv.2)) (stringify p))
  /\ Js.split "&"%char (query_text p) = map query_piece (stringify p).
Proof.
  intros Hne Hwf. unfold parse_query, query_text.
  assert (Hsplit : Js.split "&"%char
            (String.concat "&" (map query_piece (stringify p)))
          = map query_piece (stringify p)).
  { apply split_pieces.
    - by destruct (stringify p).
    - apply Forall_map, Forall_true. intros kv. apply query_piece_clean. }
  split; [|exact Hsplit]. rewrite Hsplit. clear Hne Hsplit.
  induction (stringify p) as [|kv l IH]; [done|].
  simpl in Hwf. apply andb_true_iff in Hwf as [Hkv Hl].
  apply andb_true_iff in Hkv as [Hk Hv].
  simpl. rewrite (parse_piece_piece kv Hk Hv). simpl.
  by rewrite (IH Hl).
Qed.

(** X1.  The text [stringify] returns can be read back without loss: when
    at least one value is truthy and keys and values are well-formed text,
    cutting the text at the ampersands and each piece at its equals sign,
    and decoding, gives the truthy pairs, values printed, in the order of
    the record.  No key or value can add or hide a parameter. *)
Theorem query_text_reads_back (p : Params) :
  stringify p <> [] ->
  forallb (fun kv => well_formed kv.1 && well_formed (to_string kv.2))
    (stringify p) = true ->
  parse_query (query_text p)
  = Some (map (fun kv => (kv.1, to_string kv.2)) (stringify p))
  /\ Js.split "&"%char (query_text p) = map query_piece (stringify p).
Proof. apply parse_query_text. Qed.

End Encoding.

Section MoreFacts.

Context {W : Type} `{Network W}.

Implicit Types (st : Client (W := W)) (o : DriveOptions) (p : Params).

(** *** The cache only grows *)






(** *** Names that do not decode *)

(** X3.  A segment with a malformed percent-escape is refused before
    anything is asked: when the sub-paths before it are resolved and its
    own is not, [getMetadata] throws [URIError] and leaves the client as it
    was (no call, no cache entry), and [index] passes the error on instead
    of reporting 404. *)
Theorem malformed_segment_throws fuel path st pre s post :
  let key := join ["/"; path; "/"] in
  let parent := fold_left extend pre "/" in
  Js.split Js.slash (trim key Js.slash) = pre ++ s :: post ->
  cached_along (pathCache st) "/" pre = true ->
  cache_read (pathCache st) (extend parent s) = None ->
  cache_read (pathCache st) key = None ->
  Js.decodeURIComponent s = None ->
  getMetadata fuel path st = (Throw URIError, st)
  /\ index fuel (Some path) st = (Throw URIError, st).
Proof.
  intros key parent Hsegs Hpre HP Hkey Hdec.
  assert (Hget : getMetadata fuel path st = (Throw URIError, st)).
  { rewrite getMetadata_unfold. fold key. simpl. rewrite Hkey, Hsegs.
    rewrite (walk_cached fuel pre (s :: post) "/" _ st Hpre eq_refl).
    fold parent. rewrite walk_unfold. simpl. rewrite HP.
    unfold fetch_segment, bind, Date_now, throw. by rewrite Hdec. }
  split; [exact Hget|]. unfold index, bind. simpl. by rewrite Hget.
Qed.

(** *** No read of an undefined parent *)

Lemma authorize_no_type_error st : (authorize st).1 <> Throw TypeError.
Proof.
  destruct (token_fresh (options st) (date_now (world st))) eqn:Hf.
  - by rewrite authorize_fresh.
  - rewrite authorize_stale by done. simpl.
    destruct (fetch_token _ _) as [[status result|] w']; simpl; [|done].
    destruct (truthy_str (token_error result)); [|done].
    by destruct (token_error_description result).
Qed.

Lemma request_no_type_error fuel p st : (request fuel p st).1 <> Throw TypeError.
Proof.
  revert st. induction fuel as [|fuel IH]; intros st; [done|].
  rewrite request_unfold. unfold attempt, bind, get_options.
  pose proof (authorize_no_type_error st) as Ha.
  destruct (authorize st) as [[[]| |] st0]; simpl in *; try done.
  - unfold fetch_DRIVE, settle.
    destruct (fetch_files _ _ _) as [[status [m|r]|] w']; simpl; try done.
    destruct (Js.startsWith _ _); [apply IH|done].
  - congruence.
Qed.

Lemma walk_no_type_error fuel subpath base md st :
  md <> None -> (walk fuel subpath base md st).1 <> Throw TypeError.
Proof.
  revert base md st. induction subpath as [|name rest IH]; intros base md st Hmd.
  { done. }
  rewrite walk_unfold. simpl.
  destruct (cache_read (pathCache st) (extend base name)) as [m|]; [by apply IH|].
  destruct md as [m|]; [|done].
  unfold fetch_segment, bind, Date_now, throw.
  destruct (Js.decodeURIComponent name) as [decoded|]; [|done].
  match goal with |- context [request fuel ?q st] =>
    pose proof (request_no_type_error fuel q st) as Hr;
    destruct (request fuel q st) as [[r| |] st1] end; simpl in *;
    try done; try congruence.
  unfold cache_set, log. simpl.
  match goal with |- context [cache_read ?c ?k] =>
    destruct (cache_read c k) as [m'|] end; [by apply IH|done].
Qed.

(** X4.  In a client made by the constructor, whatever has been done to it
    since, a failure of [getMetadata] or [index] is one of these: what
    [fetch] or [json()] rejected with, passed on as it is; a thrown
    [{ status, message }] (an error of an endpoint, or the 404 of [index]);
    the [URIError] of a malformed segment.  None comes from the code reading
    [id] of an [undefined] parent: the parent is always an object, the root
    or a found entry.  (The endpoints answer with bodies of the shapes of
    [TokenBody] and [FilesBody].) *)
Theorem resolution_reads_no_undefined_parent (o : DriveOptions) (w : W)
    (ops : list Op) fuel path e :
  let st := run_ops ops (constructor o w) in
  (getMetadata fuel path st).1 = Throw e
  \/ (index fuel (Some path) st).1 = Throw e ->
  e = FetchError \/ e = URIError
  \/ (exists status message, e = Failure status message)
  \/ (exists status, e = FailureBare status).
Proof.
  simpl. set (st := run_ops ops (constructor o w)).
  assert (Hroot : pathCache st !! "/" = Some (Some (root_object (root_or_default o)))).
  { unfold st. generalize (constructor o w)
      (eq_refl : pathCache (constructor o w) !! "/"
                 = Some (Some (root_object (root_or_default o)))).
    induction ops as [|op ops IH]; intros st0 Hst0; [done|].
    simpl. apply IH. by rewrite run_op_root. }
  assert (Hget : (getMetadata fuel path st).1 <> Throw TypeError).
  { rewrite getMetadata_unfold. simpl.
    destruct (cache_read (pathCache st) (join _)) as [m|]; [done|].
    match goal with |- context [walk fuel ?l ?b ?m st] =>
      pose proof (walk_no_type_error fuel l b m st) as Hw;
      destruct (walk fuel l b m st) as [[[]| |] st1] end; simpl in *;
      try done.
    intros [= ->]. apply Hw; [|done]. unfold cache_read. by rewrite Hroot. }
  assert (Hindex : (index fuel (Some path) st).1 <> Throw TypeError).
  { unfold index, bind. simpl.
    destruct (getMetadata fuel path st) as [[[m|]| |] st1]; simpl in *;
      try done.
    intros [= ->]. by apply Hget. }
  intros Hthrown.
  assert (Hne : e <> TypeError) by (destruct Hthrown; congruence).
  destruct e as [status message|status| | |]; eauto 6. done.
Qed.

(** *** Tokens of five minutes or less *)

(** X5.  The five minutes taken off the declared lifetime decide whether a
    granted token is ever reused: with a lifetime of 300 seconds or less
    the stored expiry is already reached when the answer arrives, and the
    next [authorize], however soon, runs a new exchange; with a longer
    lifetime (and a clock after the epoch) an [authorize] at that instant
    does nothing. *)
Theorem short_lifetime_is_never_reused st status tok life (w2 : W) :
  token_fresh (options st) (date_now (world st)) = false ->
  (fetch_token (refresh_body (options st)) (world st)).1
    = Answer status (TokenGranted tok life) ->
  let st1 := (authorize st).2 in
  (authorize st).1 = Ret tt
  /\ (life <= 300 -> date_now (world st1) <= date_now w2 ->
      trace (authorize (set_world w2 st1)).2
      = trace st1 ++ [TokenCall (refresh_body (options st1))])
  /\ (300 < life -> 0 <= date_now (world st1) ->
      authorize st1 = (Ret tt, st1)).
Proof.
  intros Hf Hr. simpl. rewrite authorize_stale by done. simpl.
  destruct (fetch_token _ _) as [r w']. simpl in Hr. subst r. simpl.
  set (st0 := push_call _ (set_world w' st)).
  pose proof (refreshed_fields (date_now (world st)) tok life st0)
    as (Hw & _ & _ & _ & He).
  simpl in Hw, He.
  set (st1 := refreshed (date_now (world st)) (TokenGranted tok life) st0) in *.
  split; [done|]. split.
  - intros Hlife Hlater.
    pose proof (proj2 (authorize_frame (set_world w2 st1))) as Ht.
    rewrite Ht. simpl.
    rewrite (token_fresh_false (options st1) (date_now w2)); [done|].
    intros e He'. rewrite He in He'. injection He' as <-. right.
    rewrite Hw in Hlater. simpl in Hlater. nia.
  - intros Hlife Hnow. apply authorize_fresh.
    rewrite Hw in *. simpl in *.
    apply (token_fresh_true _ _ _ He); nia.
Qed.

(** *** Which token a request carries *)

Lemma request_sends_after_authorize fuel p st u st0 :
  authorize st = (Ret u, st0) ->
  exists l, trace (request (S fuel) p st).2
            = trace st0 ++ FilesCall (access_token (options st0)) (stringify p) :: l.
Proof.
  intros Ha. rewrite request_unfold. unfold attempt, bind, get_options.
  rewrite Ha. unfold fetch_DRIVE, settle.
  destruct (fetch_files _ _ _) as [[status [m|r]|] w']; simpl; eauto.
  destruct (Js.startsWith _ _); [|by eauto].
  match goal with |- context [request fuel p ?s] =>
    destruct (request_frame fuel p s) as [_ [l Hl]] end.
  exists l. rewrite Hl. simpl. by rewrite <- app_assoc.
Qed.

(** X6.  A request is sent with the token that is valid when it leaves:
    with a fresh token, the first call is the files call with the held
    token; with a stale token and a granted exchange, the exchange comes
    first and the files call carries the new token, as it carries the
    [access_token] member, present or not, of any answer without a truthy
    [error]; when the exchange is refused (the answer carries a truthy
    [error]) or its fetch is rejected, [request] throws and the files
    endpoint is not contacted. *)
Theorem request_carries_current_token fuel p st :
  (token_fresh (options st) (date_now (world st)) = true ->
   exists l, trace (request (S fuel) p st).2
             = trace st ++ FilesCall (access_token (options st)) (stringify p) :: l)
  /\ (forall status tok life,
        token_fresh (options st) (date_now (world st)) = false ->
        (fetch_token (refresh_body (options st)) (world st)).1
          = Answer status (TokenGranted tok life) ->
        exists l, trace (request (S fuel) p st).2
                  = trace st ++ TokenCall (refresh_body (options st))
                      :: FilesCall (Some tok) (stringify p) :: l)
  /\ (forall status result,
        token_fresh (options st) (date_now (world st)) = false ->
        (fetch_token (refresh_body (options st)) (world st)).1
          = Answer status result ->
        truthy_str (token_error result) = false ->
        exists l, trace (request (S fuel) p st).2
                  = trace st ++ TokenCall (refresh_body (options st))
                      :: FilesCall (token_access_token result) (stringify p) :: l)
  /\ (token_fresh (options st) (date_now (world st)) = false ->
      (fetch_token (refresh_body (options st)) (world st)).1 = Broken
      \/ (exists status result,
            (fetch_token (refresh_body (options st)) (world st)).1
              = Answer status result
            /\ truthy_str (token_error result) = true) ->
      (exists e, (request (S fuel) p st).1 = Throw e)
      /\ trace (request (S fuel) p st).2
         = trace st ++ [TokenCall (refresh_body (options st))]).
Proof.
  assert (Hgrant : forall status result,
    token_fresh (options st) (date_now (world st)) = false ->
    (fetch_token (refresh_body (options st)) (world st)).1
      = Answer status result ->
    truthy_str (token_error result) = false ->
    exists l, trace (request (S fuel) p st).2
              = trace st ++ TokenCall (refresh_body (options st))
                  :: FilesCall (token_access_token result) (stringify p) :: l).
  { intros status result Hf Hr Herr.
    pose proof (authorize_stale st Hf) as Ha. simpl in Ha.
    destruct (fetch_token _ _) as [r w']. simpl in Hr. subst r. simpl in Ha.
    rewrite Herr in Ha.
    destruct (request_sends_after_authorize fuel p st _ _ Ha) as [l Hl].
    exists l. rewrite Hl. unfold refreshed. simpl.
    destruct (truthy_bool _); simpl; by rewrite <- app_assoc. }
  split; [|split; [|split]].
  - intros Hf. apply (request_sends_after_authorize fuel p st tt st).
    by apply authorize_fresh.
  - intros status tok life Hf Hr.
    by apply (Hgrant status (TokenGranted tok life)).
  - exact Hgrant.
  - intros Hf Hr. rewrite request_unfold. unfold attempt, bind.
    rewrite authorize_stale by done. simpl.
    destruct (fetch_token _ _) as [[status result|] w']; simpl in *.
    + destruct Hr as [Hr|(status' & result' & [= -> ->] & Herr)]; [done|].
      rewrite Herr. simpl. eauto.
    + eauto.
Qed.

(** *** The closures of a view *)

(** X7.  The closure a view lacks cannot be called: [list()] on the view of
    a file and [raw()] on the view of a folder throw [TypeError] and touch
    nothing.  [raw(range)] on the view of a file, with a fresh token,
    issues exactly one call, to the media endpoint, for the [id] of the
    resolved file and with the range given (empty by default), and returns
    the body when the status is below 400, throwing the status with the
    server's message otherwise. *)
Theorem view_closures fuel path st v st1 :
  index fuel path st = (Ret v, st1) ->
  (isFolder v = false -> call_list fuel v st1 = (Throw TypeError, st1))
  /\ (isFolder v = true ->
      forall range, call_raw v range st1 = (Throw TypeError, st1))
  /\ (isFolder v = false ->
      token_fresh (options st1) (date_now (world st1)) = true ->
      forall range status body w',
        fetch_media (access_token (options st1)) (file_id (meta v))
          (default "" range) (world st1) = (Answer status body, w') ->
        trace (call_raw v range st1).2
        = trace st1 ++ [MediaCall (access_token (options st1))
                          (file_id (meta v)) (default "" range)]
        /\ pathCache (call_raw v range st1).2 = pathCache st1
        /\ (status < 400 -> (call_raw v range st1).1 = Ret body)
        /\ (400 <= status -> forall message, body = MediaError message ->
            (call_raw v range st1).1 = Throw (Failure status message))).
Proof.
  intros Hindex. unfold index, bind in Hindex.
  destruct (getMetadata _ _ _) as [[[m|]| |] st'] eqn:Hget; try done.
  injection Hindex as <- <-. simpl.
  split; [by intros ->|]. split; [by intros ->|].
  intros Hfile Hfresh range status body w' Hfetch.
  unfold call_raw. simpl. rewrite Hfile.
  unfold getRawData, bind, Date_now, get_options, fetch_MEDIA, settle, log, ret.
  rewrite (authorize_fresh _ Hfresh), Hfetch. simpl.
  destruct (Z.leb_spec 400 status) as [Hge|Hlt].
  - destruct body as [message|bytes]; simpl.
    + split; [done|]. split; [done|]. split; [lia|].
      by intros _ message' [= ->].
    + split; [done|]. split; [done|]. split; [lia|]. done.
  - simpl. destruct (truthy_bool _); simpl;
      (split; [done|]; split; [done|]; split; [done|]; lia).
Qed.

(** *** A listing that fails on the way *)

Lemma listFiles_loop_streams fuel n id p tok acc st pages tok' st1 e st2 :
  streams id tok st pages tok' st1 ->
  with_token tok p = page_params id tok ->
  (length pages < n)%nat ->
  request (S fuel) (page_params id tok') st1 = (Throw e, st2) ->
  listFiles_loop (S fuel) n id p tok acc st = (Throw e, st2).
Proof.
  intros Hs. revert n p acc.
  induction Hs as [tok st|tok st status r st1 rs tok' st3 Ha Hmore Hs IH];
    intros n p acc Hp Hn Hfail.
  - destruct n as [|n]; [lia|].
    by rewrite listFiles_loop_unfold, Hp, Hfail.
  - destruct n as [|n]; [simpl in Hn; lia|].
    rewrite listFiles_loop_unfold, Hp, (request_answered _ _ _ _ _ _ Ha).
    simpl. rewrite Hmore. apply IH; [|simpl in Hn; lia|done].
    by apply with_token_page.
Qed.

(** X8.  A listing gives everything or nothing: when some pages have been
    served, each naming a next page, and the query for the next page
    throws, [listFiles] throws that error; the files collected so far are
    not returned. *)
Theorem listFiles_fails_as_a_whole fuel id st pages tok st1 e st2 :
  streams id None st pages tok st1 ->
  (length pages <= fuel)%nat ->
  request (S fuel) (page_params id tok) st1 = (Throw e, st2) ->
  listFiles (S fuel) id st = (Throw e, st2).
Proof.
  intros Hs Hn Hfail. unfold listFiles.
  apply (listFiles_loop_streams fuel (S fuel) id (list_params id) None []
           st pages tok st1 e st2 Hs eq_refl); [lia|done].
Qed.

(** *** The children of a folder view *)

(** X9.  [list()] on the view of a folder lists the folder of the view:
    when the listing queries for its [id] are answered with [pages], the
    closure returns the files of the pages in the order served, each with
    its [isFolder] flag (true exactly for the folder type) and with neither
    closure of its own, so a child folder is opened by resolving its path,
    not through the child. *)
Theorem list_annotates_children fuel path st v st1 pages st2 :
  index fuel path st = (Ret v, st1) ->
  isFolder v = true ->
  serves (file_id (meta v)) None st1 pages st2 ->
  (length pages <= fuel)%nat ->
  exists children,
    call_list fuel v st1 = (Ret children, st2)
    /\ meta <$> children = concat (files <$> pages)
    /\ Forall (fun c =>
                 (isFolder c = true <-> file_mimeType (meta c) = FOLDER_TYPE)
                 /\ list_cap c = None /\ raw_cap c = None) children.
Proof.
  intros Hindex Hfolder Hs Hn.
  assert (Hcap : list_cap v = Some MkListFn).
  { unfold index, bind in Hindex.
    destruct (getMetadata _ _ _) as [[[m|]| |] st'] eqn:Hget; try done.
    injection Hindex as <- <-. simpl in *. by rewrite Hfolder. }
  assert (Hpos : (0 < length pages)%nat) by (destruct Hs; simpl; lia).
  destruct fuel as [|fuel]; [lia|].
  destruct (listFiles_loop_serves fuel (S fuel) (file_id (meta v))
              (list_params (file_id (meta v))) None [] st1 pages st2 Hs
              eq_refl Hn) as [Hr _].
  eexists. unfold call_list, bind, listFiles. rewrite Hcap, Hr. simpl.
  split; [done|]. split.
  - rewrite <- list_fmap_compose. by rewrite list_fmap_id.
  - apply Forall_fmap, Forall_true. intros item. simpl.
    split; [|done]. unfold is_folder. split.
    + by intros ?%String.eqb_eq.
    + by intros ?%String.eqb_eq.
Qed.

End MoreFacts.

(** ** Paths as text *)

Section PathText.

Import Uri.

(** *** [trim] *)

Lemma trim_left_spec c s :
  first_char (Js.trim_left c s) <> Some c
  /\ exists i, s = repeat_char i c +:+ Js.trim_left c s.
Proof.
  induction s as [|a s [IHf [i IHs]]].
  - split; [done|by exists 0%nat].
  - simpl. destruct (Ascii.eqb a c) eqn:Hac.
    + apply Ascii.eqb_eq in Hac. subst a. split; [done|].
      exists (S i). simpl. rewrite append_cons. by rewrite <- IHs.
    + split; [|by exists 0%nat]. simpl. intros [= ->].
      by rewrite Ascii.eqb_refl in Hac.
Qed.

Lemma trim_right_cons c a s :
  Js.trim_right c (String a s)
  = match Js.trim_right c s with
    | EmptyString => if Ascii.eqb a c then EmptyString else String a EmptyString
    | t => String a t
    end.
Proof. reflexivity. Qed.

Lemma trim_right_spec c s :
  last_char (Js.trim_right c s) <> Some c
  /\ (first_char s <> Some c -> first_char (Js.trim_right c s) <> Some c)
  /\ exists j, s = Js.trim_right c s +:+ repeat_char j c.
Proof.
  induction s as [|a s (IHl & IHf & j & IHs)].
  - split; [done|]. split; [done|]. by exists 0%nat.
  - rewrite trim_right_cons.
    destruct (Js.trim_right c s) as [|b t] eqn:Ht.
    + destruct (Ascii.eqb a c) eqn:Hac.
      * apply Ascii.eqb_eq in Hac. subst a.
        split; [done|]. split; [done|]. exists (S j). simpl.
        by rewrite IHs at 1.
      * split; [|split].
        -- simpl. intros [= ->]. by rewrite Ascii.eqb_refl in Hac.
        -- done.
        -- exists j. rewrite append_cons. by rewrite IHs at 1.
    + split; [|split].
      * by rewrite last_char_cons.
      * done.
      * exists j. rewrite append_cons. by rewrite IHs at 1.
Qed.

(** X10.  [trim(path, "/")] takes the run of slashes off each end of the
    path and nothing else: the result neither starts nor ends with a slash,
    and the path is the result between two runs of slashes. *)
Theorem trim_takes_both_runs_off (s : string) :
  first_char (trim s Js.slash) <> Some Js.slash
  /\ last_char (trim s Js.slash) <> Some Js.slash
  /\ exists i j,
       s = repeat_char i Js.slash +:+ trim s Js.slash +:+ repeat_char j Js.slash.
Proof.
  unfold trim.
  destruct (trim_left_spec Js.slash s) as [Hf [i Hi]].
  destruct (trim_right_spec Js.slash (Js.trim_left Js.slash s))
    as (Hl & Hfr & j & Hj).
  split; [by apply Hfr|]. split; [done|].
  exists i, j. rewrite <- Hj. exact Hi.
Qed.

(** *** [join] is idempotent *)

Lemma collapse_id s :
  no_double_slash s = true -> Js.collapse_slashes s = s.
Proof.
  induction s as [|c s IH]; [done|]. intros Hnd.
  destruct s as [|c' s'].
  { simpl. by destruct (Ascii.eqb c Js.slash). }
  rewrite no_double_cons in Hnd. apply andb_true_iff in Hnd as [Hcc Hnd].
  change (Js.collapse_slashes (String c (String c' s'))) with
    (if Ascii.eqb c Js.slash
     then if Ascii.eqb c' Js.slash then Js.collapse_slashes (String c' s')
          else String c (Js.collapse_slashes (String c' s'))
     else String c (Js.collapse_slashes (String c' s'))).
  rewrite (IH Hnd).
  destruct (Ascii.eqb c Js.slash), (Ascii.eqb c' Js.slash); done.
Qed.

Lemma collapse_cons2 c c' s :
  Js.collapse_slashes (String c (String c' s))
  = if Ascii.eqb c Js.slash
    then if Ascii.eqb c' Js.slash then Js.collapse_slashes (String c' s)
         else String c (Js.collapse_slashes (String c' s))
    else String c (Js.collapse_slashes (String c' s)).
Proof. reflexivity. Qed.

Lemma collapse_trailing s :
  Js.collapse_slashes (s +:+ "//") = Js.collapse_slashes (s +:+ "/").
Proof.
  induction s as [|c s IH]; [done|].
  destruct s as [|c' s'].
  - change (String c "" +:+ "//") with (String c (String Js.slash "/")).
    change (String c "" +:+ "/") with (String c "/").
    rewrite collapse_cons2. simpl. by destruct (Ascii.eqb c Js.slash).
  - rewrite !(append_cons c), !(append_cons c') in *.
    rewrite !collapse_cons2, IH. done.
Qed.

Lemma last_char_snoc_inv s c :
  last_char s = Some c -> exists y, s = y +:+ String c EmptyString.
Proof.
  induction s as [|a s IH]; [done|].
  destruct s as [|b s'].
  - simpl. intros [= ->]. by exists EmptyString.
  - rewrite last_char_cons by done. intros Hl.
    destruct (IH Hl) as [y Hy]. exists (String a y).
    by rewrite append_cons, <- Hy.
Qed.

Lemma join_of_key path :
  join ["/"; join ["/"; path; "/"]; "/"] = join ["/"; path; "/"].
Proof.
  destruct (join_normal path) as (Hf & Hl & Hnd).
  set (key := join ["/"; path; "/"]) in *.
  rewrite (join_unfold key). clearbody key.
  destruct (last_char_snoc_inv _ _ Hl) as [y Hy].
  transitivity (Js.collapse_slashes (key +:+ "/")).
  { destruct key as [|a k']; [done|]. simpl in Hf. injection Hf as ->.
    by rewrite (append_cons Js.slash k' "/"), collapse_cons2, !Ascii.eqb_refl. }
  transitivity (Js.collapse_slashes (y +:+ "//")).
  { rewrite Hy, append_assoc. done. }
  rewrite collapse_trailing.
  transitivity (Js.collapse_slashes key); [by rewrite Hy|].
  by apply collapse_id.
Qed.

(** X11.  Normalizing is idempotent: the key of a key is the key itself,
    so resolving a path by its key behaves as resolving the path. *)
Theorem join_is_idempotent {W : Type} `{Network W} (path : string) fuel
    (st : Client (W := W)) :
  join ["/"; join ["/"; path; "/"]; "/"] = join ["/"; path; "/"]
  /\ getMetadata fuel (join ["/"; path; "/"]) st = getMetadata fuel path st.
Proof.
  split; [apply join_of_key|].
  unfold getMetadata. by rewrite join_of_key.
Qed.

End PathText.

Section Segments.

Import Uri.

Context {W : Type} `{Network W}.

Implicit Types (st : Client (W := W)).

Lemma split_free sep s :
  Forall (fun x => occurs sep x = false) (Js.split sep s).
Proof.
  induction s as [|c s IH]; [by repeat constructor|]. simpl.
  destruct (Ascii.eqb c sep) eqn:Hc; [by constructor|].
  destruct (Js.split sep s) as [|h t]; [by repeat constructor; simpl; rewrite Hc|].
  apply Forall_cons in IH as [Hh Ht]. constructor; [|done].
  simpl. by rewrite Hc, Hh.
Qed.

Lemma no_double_tail a s :
  no_double_slash (String a s) = true -> no_double_slash s = true.
Proof.
  destruct s as [|b s]; [done|]. rewrite no_double_cons.
  by intros [_ ?]%andb_true_iff.
Qed.

(** Without a slash at either end and without two in a row, no segment is
    empty. *)
Lemma split_nonempty_segments t :
  no_double_slash t = true -> last_char t <> Some Js.slash ->
  (first_char t <> Some Js.slash -> t <> EmptyString ->
   Forall (fun x => x <> EmptyString) (Js.split Js.slash t))
  /\ Forall (fun x => x <> EmptyString) (tail (Js.split Js.slash t)).
Proof.
  induction t as [|c t IH]; intros Hnd Hlast.
  { split; [done|]. simpl. constructor. }
  assert (Hnd' : no_double_slash t = true) by by eapply no_double_tail.
  assert (Hlast' : last_char t <> Some Js.slash).
  { destruct t as [|b t']; [done|]. by rewrite last_char_cons in Hlast. }
  destruct (IH Hnd' Hlast') as [IHa IHb].
  simpl. destruct (Ascii.eqb c Js.slash) eqn:Hc.
  - apply Ascii.eqb_eq in Hc. subst c. split; [by intros []|].
    simpl. apply IHa.
    + destruct t as [|b t']; [done|]. rewrite no_double_cons in Hnd.
      apply andb_true_iff in Hnd as [Hb _]. simpl in Hb.
      apply negb_true_iff in Hb. simpl. intros [= ->]. done.
    + intros ->. done.
  - pose proof (split_nonempty t) as Hne.
    destruct (Js.split Js.slash t) as [|h tl]; [done|].
    simpl in IHb. split; [intros _ _; by constructor|done].
Qed.

Lemma no_double_snoc t :
  no_double_slash (t +:+ "/") = true ->
  no_double_slash t = true /\ last_char t <> Some Js.slash.
Proof.
  induction t as [|a t IH]; [done|].
  destruct t as [|b t'].
  - change (String a "" +:+ "/") with (String a (String Js.slash "")).
    rewrite no_double_cons. intros [Ha _]%andb_true_iff.
    split; [done|]. simpl. intros [= ->]. done.
  - rewrite (append_cons a), (append_cons b), no_double_cons.
    rewrite <- (append_cons b). intros [Hab Hrest]%andb_true_iff.
    destruct (IH Hrest) as [IHn IHl].
    split; [by rewrite no_double_cons, Hab, IHn|].
    by rewrite last_char_cons.
Qed.

Lemma key_around_segments path :
  let key := join ["/"; path; "/"] in
  key <> "/" ->
  key = String Js.slash (trim key Js.slash +:+ "/").
Proof.
  intros key Hne. pose proof (segments_rebuild path Hne) as Hr. fold key in Hr.
  rewrite fold_extend in Hr by apply split_nonempty.
  rewrite split_concat in Hr. symmetry. exact Hr.
Qed.

(** X12.  Every segment the walk of [getMetadata] visits is a name: for a
    path other than the root, the segments of the normalized path are
    non-empty and hold no slash, and put back between slashes they are the
    key. *)
Theorem segments_are_names (path : string) :
  let key := join ["/"; path; "/"] in
  let segs := Js.split Js.slash (trim key Js.slash) in
  key <> "/" ->
  Forall (fun s => s <> EmptyString /\ occurs Js.slash s = false) segs
  /\ key = "/" +:+ String.concat "/" segs +:+ "/".
Proof.
  intros key segs Hne.
  pose proof (key_around_segments path Hne) as Hkey. fold key in Hkey.
  destruct (join_normal path) as (_ & _ & Hnd). fold key in Hnd.
  set (t := trim key Js.slash) in *.
  split; [|unfold segs; by rewrite split_concat].
  apply Forall_and. split; [|apply split_free].
  rewrite Hkey in Hnd.
  assert (Hnd' : no_double_slash (t +:+ "/") = true) by by eapply no_double_tail.
  destruct (no_double_snoc t Hnd') as [Ht Hl].
  apply split_nonempty_segments; try done.
  - destruct t as [|b t']; [done|].
    rewrite (append_cons b), no_double_cons in Hnd.
    apply andb_true_iff in Hnd as [Hb _]. simpl in Hb.
    apply negb_true_iff in Hb. simpl. intros [= ->]. done.
  - intros Ht0. rewrite Ht0 in Hnd. done.
Qed.

(** *** Names with any character *)

Lemma no_double_free e :
  occurs Js.slash e = false -> no_double_slash (e +:+ "/") = true.
Proof.
  induction e as [|a e IH]; [done|].
  intros Hocc. simpl in Hocc. apply orb_false_iff in Hocc as [Ha He].
  specialize (IH He). rewrite append_cons.
  destruct (e +:+ "/") as [|b r] eqn:Hr; [done|].
  by rewrite no_double_cons, Ha, IH.
Qed.

Lemma trim_right_free e :
  occurs Js.slash e = false -> Js.trim_right Js.slash (e +:+ "/") = e.
Proof.
  induction e as [|a e IH]; [done|].
  intros Hocc. simpl in Hocc. apply orb_false_iff in Hocc as [Ha He].
  rewrite append_cons, trim_right_cons, (IH He), Ha. by destruct e.
Qed.

Lemma encode_nonempty s : s <> EmptyString -> encodeURIComponent s <> EmptyString.
Proof.
  intros Hs He. pose proof (encode_length s) as Hl. rewrite He in Hl.
  destruct s; [done|]. simpl in Hl. lia.
Qed.

(** X13.  A file of any name is addressed by one segment: for a non-empty
    well-formed [name], the path [encodeURIComponent(name)] has the single
    segment it is written as (no character of it is taken for a
    separator), and resolving it below a cached root asks for the file
    whose name is [name], quotes escaped, among the children of the
    root. *)
Theorem encoded_name_is_one_segment fuel (name : string) st m :
  name <> EmptyString -> well_formed name = true ->
  cache_read (pathCache st) "/" = Some m ->
  cache_read (pathCache st) ("/" +:+ encodeURIComponent name +:+ "/") = None ->
  join ["/"; encodeURIComponent name; "/"] = "/" +:+ encodeURIComponent name +:+ "/"
  /\ Js.split Js.slash (trim ("/" +:+ encodeURIComponent name +:+ "/") Js.slash)
     = [encodeURIComponent name]
  /\ getMetadata fuel (encodeURIComponent name) st
     = match request fuel (metadata_query (file_id m) (Js.escape_quotes name)) st with
       | (Ret r, st1) =>
           (Ret (head (files r)),
            stored (date_now (world st)) ("/" +:+ encodeURIComponent name +:+ "/") r st1)
       | (Throw e, st1) => (Throw e, st1)
       | (Diverge, st1) => (Diverge, st1)
       end.
Proof.
  intros Hname Hwf Hroot Hmiss.
  set (e := encodeURIComponent name) in *.
  assert (Hfree : occurs Js.slash e = false) by by apply encode_occurs.
  assert (He : e <> EmptyString) by by apply encode_nonempty.
  assert (Hjoin : join ["/"; e; "/"] = "/" +:+ e +:+ "/").
  { rewrite join_unfold. apply (collapse_id (String Js.slash (e +:+ "/"))).
    pose proof (no_double_free e Hfree) as Hn. clearbody e.
    destruct e as [|a e']; [done|].
    rewrite (append_cons a) in *. rewrite no_double_cons, Hn.
    simpl in Hfree. apply orb_false_iff in Hfree as [Ha _]. by rewrite Ha. }
  assert (Hsplit : Js.split Js.slash (trim ("/" +:+ e +:+ "/") Js.slash) = [e]).
  { unfold trim. change ("/" +:+ e +:+ "/") with (String Js.slash (e +:+ "/")).
    assert (Hl : Js.trim_left Js.slash (String Js.slash (e +:+ "/")) = e +:+ "/").
    { clear Hmiss. clearbody e. destruct e as [|a e']; [done|].
      rewrite (append_cons a). simpl in Hfree.
      apply orb_false_iff in Hfree as [Ha _]. simpl. by rewrite Ha. }
    rewrite Hl, trim_right_free by done. by apply split_absent. }
  split; [done|]. split; [done|].
  rewrite (getMetadata_miss fuel e st [] e [] m name); simpl;
    rewrite ?Hjoin; try done; [|by apply decode_encoded].
  destruct (request _ _ _) as [[r| |] st1]; try done.
  pose proof (stored_fields (date_now (world st)) (extend "/" e) r st1)
    as (Sc & _).
  destruct (head (files r)) as [obj|] eqn:Hhead; [|done].
  simpl. rewrite Sc, cache_read_insert.
  by rewrite decide_True.
Qed.

End Segments.

(** ** oauth.ts *)

Section OAuthFacts.

Import Uri.

Lemma split_length sep s :
  length (Js.split sep s) = S (count_char sep s).
Proof.
  induction s as [|c s IH]; [done|]. simpl.
  destruct (Ascii.eqb c sep); simpl; [by rewrite IH|].
  destruct (Js.split sep s) as [|h t]; simpl in *; lia.
Qed.

Lemma split_concat_sep sep s :
  String.concat (String sep EmptyString) (Js.split sep s) = s.
Proof.
  induction s as [|c s IH]; [done|]. simpl.
  assert (Hne : Js.split sep s <> []).
  { intros Hs. pose proof (split_length sep s) as Hl. by rewrite Hs in Hl. }
  destruct (Js.split sep s) as [|h t]; [done|].
  destruct (Ascii.eqb c sep) eqn:Hc.
  - apply Ascii.eqb_eq in Hc. subst c.
    change (String.concat (String sep "") (EmptyString :: h :: t))
      with (String sep (String.concat (String sep "") (h :: t))).
    by rewrite IH.
  - rewrite <- IH. by destruct t.
Qed.

Variable J : Type.
Variable decode_segment : string -> option J.

(** The three cases of [decodeIdToken]. *)
Lemma decodeIdToken_cases (token : string) :
  (token = EmptyString ->
   OAuth.decodeIdToken J decode_segment token
   = inl (OAuth.Rejected 400 "Undefined token"))
  /\ (token <> EmptyString -> count_char "."%char token <> 2%nat ->
      OAuth.decodeIdToken J decode_segment token
      = inl (OAuth.Rejected 400 "Not enough or too many segment"))
  /\ (count_char "."%char token = 2%nat ->
      exists h p s,
        token = h +:+ "." +:+ p +:+ "." +:+ s
        /\ occurs "."%char h = false /\ occurs "."%char p = false
        /\ occurs "."%char s = false
        /\ OAuth.decodeIdToken J decode_segment token
           = match decode_segment h, decode_segment p with
             | Some hd, Some pl =>
                 inr {| OAuth.header := hd; OAuth.payload := pl;
                        OAuth.signature := s |}
             | _, _ => inl OAuth.Garbled
             end).
Proof.
  split; [by intros ->|]. split.
  - intros Hne Hcount. unfold OAuth.decodeIdToken.
    assert (Ht : truthy_str (Some token) = true) by by destruct token.
    rewrite Ht. simpl.
    pose proof (split_length "."%char token) as Hl.
    destruct (Js.split "."%char token) as [|s0 [|s1 [|s2 [|s3 l]]]];
      simpl in Hl; try done. lia.
  - intros Hcount. unfold OAuth.decodeIdToken.
    assert (Ht : truthy_str (Some token) = true) by by destruct token.
    rewrite Ht. simpl.
    pose proof (split_length "."%char token) as Hl.
    pose proof (split_concat_sep "."%char token) as Hc.
    pose proof (split_free "."%char token) as Hfree.
    destruct (Js.split "."%char token) as [|h [|p [|s [|s3 l]]]];
      simpl in Hl; try lia.
    apply Forall_cons in Hfree as [Hh Hfree].
    apply Forall_cons in Hfree as [Hp Hfree].
    apply Forall_cons in Hfree as [Hs _].
    exists h, p, s. split; [by rewrite <- Hc|].
    split; [done|]. split; [done|]. split; [done|].
    destruct (decode_segment h); [|done]. by destruct (decode_segment p).
Qed.

(** X14.  [decodeIdToken] accepts exactly the tokens with two dots whose
    first two segments decode: the empty token is rejected with status 400
    as undefined, any other token without exactly two dots is rejected
    with status 400 for its number of segments, and a token [h.p.s] yields
    the decoded [h] and [p] with [s] as it is written (the signature is
    neither decoded nor checked) or fails in the decoding. *)
Theorem decodeIdToken_accepts (token : string) :
  (token = EmptyString ->
   OAuth.decodeIdToken J decode_segment token
   = inl (OAuth.Rejected 400 "Undefined token"))
  /\ (token <> EmptyString -> count_char "."%char token <> 2%nat ->
      OAuth.decodeIdToken J decode_segment token
      = inl (OAuth.Rejected 400 "Not enough or too many segment"))
  /\ (count_char "."%char token = 2%nat ->
      exists h p s,
        token = h +:+ "." +:+ p +:+ "." +:+ s
        /\ occurs "."%char h = false /\ occurs "."%char p = false
        /\ occurs "."%char s = false
        /\ OAuth.decodeIdToken J decode_segment token
           = match decode_segment h, decode_segment p with
             | Some hd, Some pl =>
                 inr {| OAuth.header := hd; OAuth.payload := pl;
                        OAuth.signature := s |}
             | _, _ => inl OAuth.Garbled
             end).
Proof. apply decodeIdToken_cases. Qed.

Variables W V : Type.
Variable check_signature : string -> J -> W -> option V * W.

(** X15.  [verifyIdToken] does not go to the network for a token that does
    not have exactly two dots: it logs the rejection of [decodeIdToken] and
    returns [undefined] with the world untouched.  When it returns a
    payload, the token had three segments, its header and payload decoded,
    the check accepted it, and nothing was logged. *)
Theorem verifyIdToken_guards_the_network (token : string)
    (st : OAuth.Session W) :
  (count_char "."%char token <> 2%nat ->
   OAuth.verifyIdToken J decode_segment W V check_signature token st
   = (None,
      {| OAuth.world := OAuth.world W st;
         OAuth.console :=
           OAuth.console W st
           ++ [OAuth.Rejected 400
                 (if String.eqb token "" then "Undefined token"
                  else "Not enough or too many segment")] |}))
  /\ (forall v st',
        OAuth.verifyIdToken J decode_segment W V check_signature token st
        = (Some v, st') ->
        count_char "."%char token = 2%nat
        /\ OAuth.console W st' = OAuth.console W st
        /\ exists d,
             OAuth.decodeIdToken J decode_segment token = inr d
             /\ check_signature token (OAuth.header J d) (OAuth.world W st)
                = (Some v, OAuth.world W st')).
Proof.
  destruct (decodeIdToken_cases token) as (Hempty & Hcount & Hok).
  split.
  - intros Hne. unfold OAuth.verifyIdToken.
    destruct (String.eqb_spec token "") as [->|Hnonempty].
    + by rewrite (Hempty eq_refl).
    + by rewrite (Hcount Hnonempty Hne).
  - intros v st' Hv. unfold OAuth.verifyIdToken in Hv.
    destruct (OAuth.decodeIdToken J decode_segment token) as [e|d] eqn:Hd;
      [done|].
    destruct (check_signature _ _ _) as [[v'|] w'] eqn:Hcheck; [|done].
    injection Hv as <- <-. simpl.
    split; [|split; [done|by exists d]].
    destruct (decide (count_char "."%char token = 2%nat)) as [|Hne]; [done|].
    destruct (decide (token = "")) as [Hnil|Hnonempty].
    + pose proof (Hempty Hnil). congruence.
    + pose proof (Hcount Hnonempty Hne). congruence.
Qed.

(** X16.  The authorization link is [OAUTH_URL/auth?] followed by a query
    that reads back as the client id, the redirect URI and the scopes
    separated by single spaces (each left out when empty), then
    [response_type=code] and [access_type=offline]: the client secret is
    not in the link, and no field can add a parameter of its own. *)
Theorem auth_link_reads_back (o : OAuth.Options) :
  well_formed (OAuth.client_id o) = true ->
  well_formed (OAuth.redirect_uri o) = true ->
  well_formed (String.concat " " (OAuth.scopes o)) = true ->
  OAuth.buildAuthLink o
  = OAuth.OAUTH_URL +:+ "/auth?" +:+ query_text (OAuth.auth_params o)
  /\ parse_query (query_text (OAuth.auth_params o))
     = Some (present "client_id" (OAuth.client_id o)
             ++ present "redirect_uri" (OAuth.redirect_uri o)
             ++ present "scope" (String.concat " " (OAuth.scopes o))
             ++ [("response_type", "code"); ("access_type", "offline")]).
Proof.
  intros Hid Huri Hscope. split; [done|].
  destruct (parse_query_text (OAuth.auth_params o)) as [Hparse _].
  - unfold OAuth.auth_params, stringify. simpl.
    destruct (negb _), (negb _), (negb _); done.
  - unfold OAuth.auth_params, stringify. simpl.
    destruct (String.eqb (OAuth.client_id o) ""),
             (String.eqb (OAuth.redirect_uri o) ""),
             (String.eqb (String.concat " " (OAuth.scopes o)) "");
      simpl; rewrite ?Hid, ?Huri, ?Hscope; done.
  - rewrite Hparse. unfold OAuth.auth_params, stringify, present. simpl.
    destruct (String.eqb (OAuth.client_id o) ""),
             (String.eqb (OAuth.redirect_uri o) ""),
             (String.eqb (String.concat " " (OAuth.scopes o)) ""); done.
Qed.

End OAuthFacts.

(** ** More runs *)

Section MoreRuns.

Import Scripted Cases Uri.

Lemma query_text_reads_back_witness :
  parse_query (query_text (list_params "x"))
  = Some [("pageSize", "1000");
          ("q", "'x' in parents and trashed = false AND name != '.password'");
          ("fields", "nextPageToken, files(" +:+ FILE_ATTRS +:+ ")");
          ("orderBy", "folder, name")].
Proof.
  refine (proj1 (query_text_reads_back (list_params "x") _ _));
    [discriminate|reflexivity].
Defined.


Lemma malformed_segment_throws_witness :
  index 1 (Some "100%") (authorized []) = (Throw URIError, authorized []).
Proof.
  refine (proj2 (malformed_segment_throws 1 "100%" (authorized [])
                   [] "100%" [] _ _ _ _ _)); vm_compute; reflexivity.
Defined.

Lemma resolution_reads_no_undefined_parent_witness :
  Failure 404 "File not found: ." = FetchError
  \/ Failure 404 "File not found: ." = URIError
  \/ (exists status message,
        Failure 404 "File not found: ." = Failure status message)
  \/ (exists status, Failure 404 "File not found: ." = FailureBare status).
Proof.
  apply (resolution_reads_no_undefined_parent (options server_says_404)
           (world server_says_404) [] 1 "a").
  left. vm_compute; reflexivity.
Defined.

Lemma short_lifetime_is_never_reused_witness :
  token_calls (trace (authorize (authorize short_lived).2).2) = 2%nat.
Proof.
  assert (Hstale : token_fresh (options short_lived)
                     (date_now (world short_lived)) = false) by reflexivity.
  assert (Hgrant : (fetch_token (refresh_body (options short_lived))
                      (world short_lived)).1
                   = Answer 200 (TokenGranted "t1" 120)) by reflexivity.
  destruct (short_lifetime_is_never_reused short_lived 200 "t1" 120
              (world (authorize short_lived).2) Hstale Hgrant)
    as (_ & Hagain & _).
  assert (Hsame : set_world (world (authorize short_lived).2)
                    (authorize short_lived).2 = (authorize short_lived).2)
    by reflexivity.
  rewrite Hsame in Hagain. rewrite Hagain; [reflexivity|lia|].
  change (6 <= 6). lia.
Defined.

Lemma request_carries_current_token_witness :
  (exists l, trace (request 1 (metadata_query "root" "a") listable).2
             = FilesCall (Some "tok") (stringify (metadata_query "root" "a")) :: l)
  /\ (exists l, trace (request 1 (metadata_query "root" "a") unauthorized).2
                = TokenCall (refresh_body credentials)
                    :: FilesCall (Some "t1") (stringify (metadata_query "root" "a"))
                    :: l)
  /\ (exists l, trace (request 1 (metadata_query "root" "a")
                         expired_and_unserved).2
                = TokenCall (refresh_body credentials)
                    :: FilesCall None (stringify (metadata_query "root" "a"))
                    :: l)
  /\ trace (request 1 (metadata_query "root" "a") refused).2
     = [TokenCall (refresh_body credentials)].
Proof.
  split; [|split; [|split]].
  - destruct (request_carries_current_token 0 (metadata_query "root" "a")
                listable) as (Hfresh & _ & _ & _).
    apply Hfresh. vm_compute; reflexivity.
  - destruct (request_carries_current_token 0 (metadata_query "root" "a")
                unauthorized) as (_ & Hstale & _ & _).
    apply (Hstale 200 "t1" 3600); vm_compute; reflexivity.
  - destruct (request_carries_current_token 0 (metadata_query "root" "a")
                expired_and_unserved) as (_ & _ & Hbare & _).
    apply (Hbare 500 no_members); vm_compute; reflexivity.
  - destruct (request_carries_current_token 0 (metadata_query "root" "a")
                refused) as (_ & _ & _ & Hrefused).
    apply Hrefused; [vm_compute; reflexivity|].
    right. exists 400, (TokenError "invalid_grant" "Bad Request").
    split; vm_compute; reflexivity.
Defined.

Lemma view_closures_witness :
  (call_raw view_ab (Some "bytes=0-4") (index 1 (Some "a b") readable).2).1
  = Ret (MediaStream "bytes").
Proof.
  assert (Hindex : index 1 (Some "a b") readable
                   = (Ret view_ab, (index 1 (Some "a b") readable).2))
    by (vm_compute; reflexivity).
  destruct (view_closures 1 (Some "a b") readable view_ab _ Hindex)
    as (_ & _ & Hraw).
  assert (Hfetch : fetch_media (Some "tok") "2" "bytes=0-4"
                     (world (index 1 (Some "a b") readable).2)
                   = (Answer 206 (MediaStream "bytes"),
                      (fetch_media (Some "tok") "2" "bytes=0-4"
                         (world (index 1 (Some "a b") readable).2)).2))
    by (vm_compute; reflexivity).
  assert (Hfresh : token_fresh (options (index 1 (Some "a b") readable).2)
                     (date_now (world (index 1 (Some "a b") readable).2)) = true)
    by (vm_compute; reflexivity).
  destruct (Hraw eq_refl Hfresh (Some "bytes=0-4") 206 (MediaStream "bytes") _
              Hfetch) as (_ & _ & Hok & _).
  apply Hok. lia.
Defined.

Lemma listFiles_fails_as_a_whole_witness :
  (listFiles 2 "dir" broken_listing).1 = Throw (Failure 500 "Backend Error").
Proof.
  assert (Hs : streams "dir" None broken_listing
                 [{| files := [f1; f2]; nextPageToken := Some "next" |}]
                 (Some "next")
                 (listed "dir" (date_now (world broken_listing))
                    (attempt (page_params "dir" None) broken_listing).2)).
  { eapply (streams_cons "dir" None broken_listing 200);
      [vm_compute; reflexivity|reflexivity|apply streams_nil]. }
  rewrite (listFiles_fails_as_a_whole 1 "dir" broken_listing _ _ _
             (Failure 500 "Backend Error")
             (request 2 (page_params "dir" (Some "next"))
                (listed "dir" (date_now (world broken_listing))
                   (attempt (page_params "dir" None) broken_listing).2)).2 Hs);
    [reflexivity|simpl; lia|vm_compute; reflexivity].
Defined.

Lemma list_annotates_children_witness :
  exists children,
    (call_list 2 root_view three_children).1 = Ret children
    /\ meta <$> children = [f1; f2; f3].
Proof.
  assert (Hindex : index 2 None three_children = (Ret root_view, three_children))
    by (vm_compute; reflexivity).
  assert (Hs : serves "root" None three_children
                 [{| files := [f1; f2]; nextPageToken := Some "next" |};
                  {| files := [f3]; nextPageToken := None |}]
                 (listFiles 2 "root" three_children).2).
  { eapply (serves_next "root" None three_children 200 _
              (attempt (page_params "root" None) three_children).2);
      [vm_compute; reflexivity|reflexivity|].
    refine (serves_last "root" (Some "next") _ 200 _
              (attempt (page_params "root" (Some "next"))
                 (listed "root" (date_now (world three_children))
                    (attempt (page_params "root" None) three_children).2)).2 _ _);
      [vm_compute; reflexivity|reflexivity]. }
  destruct (list_annotates_children 2 None three_children root_view
              three_children _ _ Hindex eq_refl Hs)
    as (children & Hcall & Hmeta & _); [simpl; lia|].
  exists children. split; [by rewrite Hcall|exact Hmeta].
Defined.

Lemma segments_are_names_witness :
  Forall (fun s => s <> EmptyString /\ occurs Js.slash s = false)
    (Js.split Js.slash (trim (join ["/"; "a//b/"; "/"]) Js.slash)).
Proof.
  refine (proj1 (segments_are_names "a//b/" _)).
  vm_compute. discriminate.
Defined.

Lemma encoded_name_is_one_segment_witness :
  join ["/"; encodeURIComponent odd_name; "/"] = "/a%2Fb's/"
  /\ (getMetadata 1 (encodeURIComponent odd_name) with_odd_name).1
     = Ret (Some (file "3" odd_name "text/plain")).
Proof.
  assert (Hname : odd_name <> EmptyString) by discriminate.
  assert (Hwf : well_formed odd_name = true) by reflexivity.
  assert (Hroot : cache_read (pathCache with_odd_name) "/"
                  = Some (root_object "root")) by (vm_compute; reflexivity).
  assert (Hmiss : cache_read (pathCache with_odd_name)
                    ("/" +:+ encodeURIComponent odd_name +:+ "/") = None)
    by (vm_compute; reflexivity).
  destruct (encoded_name_is_one_segment 1 odd_name with_odd_name
              (root_object "root") Hname Hwf Hroot Hmiss) as (Hjoin & _ & Hget).
  split; [rewrite Hjoin; reflexivity|]. rewrite Hget. reflexivity.
Defined.

Lemma decodeIdToken_accepts_witness :
  OAuth.decodeIdToken string Some "a.b"
  = inl (OAuth.Rejected 400 "Not enough or too many segment")
  /\ exists d, OAuth.decodeIdToken string Some "a.b.c" = inr d.
Proof.
  split.
  - destruct (decodeIdToken_accepts string Some "a.b") as (_ & Hcount & _).
    apply Hcount; [discriminate|]. vm_compute. discriminate.
  - destruct (decodeIdToken_accepts string Some "a.b.c") as (_ & _ & Hok).
    destruct Hok as (h & p & sg & _ & _ & _ & _ & Hd); [reflexivity|].
    rewrite Hd. eexists. reflexivity.
Defined.

Lemma verifyIdToken_guards_the_network_witness :
  OAuth.verifyIdToken string Some nat string (fun _ h w => (Some h, S w)) "a.b"
    {| OAuth.world := 0%nat; OAuth.console := [] |}
  = (None,
     {| OAuth.world := 0%nat;
        OAuth.console :=
          [OAuth.Rejected 400 "Not enough or too many segment"] |}).
Proof.
  destruct (verifyIdToken_guards_the_network string Some nat string
              (fun _ h w => (Some h, S w)) "a.b"
              {| OAuth.world := 0%nat; OAuth.console := [] |}) as [Hreject _].
  apply Hreject. vm_compute. discriminate.
Defined.

Lemma auth_link_reads_back_witness :
  parse_query (query_text (OAuth.auth_params app))
  = Some [("client_id", "id.apps.example");
          ("redirect_uri", "http://example.com/redirect_uri");
          ("scope", "email drive.readonly");
          ("response_type", "code"); ("access_type", "offline")].
Proof.
  refine (proj2 (auth_link_reads_back app _ _ _)); reflexivity.
Defined.

End MoreRuns.
